(** * Ent: statistical tests over a byte buffer (ent.hpp)

    A shallow embedding of [Ent::Ent] from [src/ent.hpp] and the properties
    of its statistical engine.

    - [unsigned char] is [Byte.byte]; [size_t], [unsigned long] and
      [unsigned long long] are [Z] with the wrap-around modulo 2^64
      written out ([wrap64]); [int] is [Z] with [wrap_int].
    - [double] is the primitive binary64 [float], every operation rounded on
      its own (no fused multiply-add, no extended precision); the conversion
      of an integer to [double] is the correctly rounded [to_double].
    - [std::log2] and [erfc] come from the C library and are a parameter
      ([libm]); [std::sqrt] is the IEEE square root.
    - [data[i]] is the unchecked [operator[]] of [std::vector]: reading past
      the end is undefined behaviour, which the embedding records as the
      outcome [OutOfRange i]. *)

From Stdlib Require Import ZArith List Bool Lia Floats.
From Stdlib Require Uint63.
From Stdlib.Strings Require Import Byte.
Import ListNotations.
Local Open Scope Z_scope.

(** ** Machine integers *)

Definition wrap64 (z : Z) : Z := z mod 2 ^ 64.
Definition wrap_int (z : Z) : Z := (z + 2 ^ 31) mod 2 ^ 32 - 2 ^ 31.

Definition byte_val (b : byte) : Z := Z.of_N (Byte.to_N b).

Definition uchar_of_Z (z : Z) : byte :=
  match Byte.of_N (Z.to_N (z mod 256)) with
  | Some b => b
  | None => x00
  end.

(** ** Doubles *)

(** Integer to [double]: round to nearest, ties to even. *)
Definition to_double (z : Z) : float :=
  SF2Prim (binary_normalize prec emax z 0 false).

(** [M_SQRT1_2] of <cmath>: the double nearest to 1/sqrt(2). *)
Definition M_SQRT1_2 : float := 0x1.6a09e667f3bcdp-1%float.

Record libm := { log2 : float -> float; erfc : float -> float }.

(** ** Vectors *)

Definition size {A} (v : list A) : Z := Z.of_nat (length v).

Fixpoint modify_nth {A} (n : nat) (f : A -> A) (v : list A) : list A :=
  match v, n with
  | [], _ => []
  | x :: v', O => f x :: v'
  | x :: v', S n' => x :: modify_nth n' f v'
  end.

(** [v[i] = f (v[i])] on a vector whose size covers [i] (the tables below
    have 2 or 256 entries and are indexed by a bit or a byte). *)
Definition modify {A} (v : list A) (i : Z) (f : A -> A) : list A :=
  modify_nth (Z.to_nat i) f v.

(** ** Outcomes of a run *)

Inductive outcome (A : Type) : Type :=
| Done (a : A)
| OutOfRange (index : Z)
| OutOfFuel.
Arguments Done {A} a.
Arguments OutOfRange {A} index.
Arguments OutOfFuel {A}.

Definition bind {A B} (o : outcome A) (k : A -> outcome B) : outcome B :=
  match o with
  | Done a => k a
  | OutOfRange i => OutOfRange i
  | OutOfFuel => OutOfFuel
  end.

Notation "x <- o ;; k" := (bind o (fun x => k))
  (at level 61, o at next level, right associativity).

(** [data[i]] read as an integer. *)
Definition read (d : list byte) (i : Z) : outcome Z :=
  match nth_error d (Z.to_nat i) with
  | Some b => Done (byte_val b)
  | None => OutOfRange i
  end.

(** [data[i] = b]. *)
Definition write (d : list byte) (i : Z) (b : byte) : list byte :=
  modify d i (fun _ => b).

(** ** The object *)

Record Ent := mkEnt {
  data : list byte;
  entropy : float;
  compression : float;
  chisquare : float;
  p_value : float;
  mean : float;
  pi_estimate : float;
  serial_correlation : float;
  streamOfBitsMode : bool;
  printTableMode : bool;
  foldCaseMode : bool;
  terseMode : bool;
  printResultMode : bool
}.

Definition set_data (v : list byte) (s : Ent) : Ent :=
  mkEnt v (entropy s) (compression s) (chisquare s) (p_value s) (mean s)
    (pi_estimate s) (serial_correlation s) (streamOfBitsMode s)
    (printTableMode s) (foldCaseMode s) (terseMode s) (printResultMode s).
Definition set_entropy (v : float) (s : Ent) : Ent :=
  mkEnt (data s) v (compression s) (chisquare s) (p_value s) (mean s)
    (pi_estimate s) (serial_correlation s) (streamOfBitsMode s)
    (printTableMode s) (foldCaseMode s) (terseMode s) (printResultMode s).
Definition set_compression (v : float) (s : Ent) : Ent :=
  mkEnt (data s) (entropy s) v (chisquare s) (p_value s) (mean s)
    (pi_estimate s) (serial_correlation s) (streamOfBitsMode s)
    (printTableMode s) (foldCaseMode s) (terseMode s) (printResultMode s).
Definition set_chisquare (v : float) (s : Ent) : Ent :=
  mkEnt (data s) (entropy s) (compression s) v (p_value s) (mean s)
    (pi_estimate s) (serial_correlation s) (streamOfBitsMode s)
    (printTableMode s) (foldCaseMode s) (terseMode s) (printResultMode s).
Definition set_p_value (v : float) (s : Ent) : Ent :=
  mkEnt (data s) (entropy s) (compression s) (chisquare s) v (mean s)
    (pi_estimate s) (serial_correlation s) (streamOfBitsMode s)
    (printTableMode s) (foldCaseMode s) (terseMode s) (printResultMode s).
Definition set_mean (v : float) (s : Ent) : Ent :=
  mkEnt (data s) (entropy s) (compression s) (chisquare s) (p_value s) v
    (pi_estimate s) (serial_correlation s) (streamOfBitsMode s)
    (printTableMode s) (foldCaseMode s) (terseMode s) (printResultMode s).
Definition set_pi_estimate (v : float) (s : Ent) : Ent :=
  mkEnt (data s) (entropy s) (compression s) (chisquare s) (p_value s) (mean s)
    v (serial_correlation s) (streamOfBitsMode s)
    (printTableMode s) (foldCaseMode s) (terseMode s) (printResultMode s).
Definition set_serial_correlation (v : float) (s : Ent) : Ent :=
  mkEnt (data s) (entropy s) (compression s) (chisquare s) (p_value s) (mean s)
    (pi_estimate s) v (streamOfBitsMode s)
    (printTableMode s) (foldCaseMode s) (terseMode s) (printResultMode s).

(** The constructors: every result field starts at 0.0 and every flag at its
    default; [setStreamOfBitsMode] and [setFoldCaseMode] are then applied. *)
Definition new_Ent (buffer : list byte) (bits fold : bool) : Ent :=
  mkEnt buffer 0 0 0 0 0 0 0 bits false fold false true.

Definition BYTE_VAL_COUNT : Z := 256.

(** The inner loop [for (int bit = 0; bit < 8; bit++)]. *)
Definition bit_positions : list Z := [0; 1; 2; 3; 4; 5; 6; 7].

(** [(byte >> bit) & 1]. *)
Definition bitValue (byte : byte) (bit : Z) : Z :=
  Z.land (Z.shiftr (byte_val byte) bit) 1.

Section Engine.

Variable lm : libm.

(** *** norm_cdf *)
Definition norm_cdf (x : float) : float :=
  (0.5 * erfc lm (- x * M_SQRT1_2))%float.

(** *** calculate_entropy *)

Definition count_bits_double (frequencies : list float) (byte : byte) : list float :=
  fold_left (fun fr bit => modify fr (bitValue byte bit) (fun f => f + 1)%float)
    bit_positions frequencies.

Definition count_byte_double (frequencies : list float) (byte : byte) : list float :=
  modify frequencies (byte_val byte) (fun f => f + 1)%float.

(** The loop over [frequencies]: normalise, skip zero, accumulate. *)
Definition entropy_loop (total : float) (frequencies : list float) : float :=
  fold_left (fun entropy frequency =>
               let frequency := (frequency / total)%float in
               if (0 <? frequency)%float
               then (entropy - frequency * log2 lm frequency)%float
               else entropy)
    frequencies 0%float.

Definition calculate_entropy (s : Ent) : Ent :=
  if streamOfBitsMode s then
    let frequencies := fold_left count_bits_double (data s) (repeat 0%float 2) in
    let totalBits := (8 * to_double (size (data s)))%float in
    let entropy := entropy_loop totalBits frequencies in
    let max_entropy := 1%float in
    set_compression (100 * (1 - entropy / max_entropy))%float (set_entropy entropy s)
  else
    let frequencies :=
      fold_left count_byte_double (data s) (repeat 0%float (Z.to_nat BYTE_VAL_COUNT)) in
    let entropy := entropy_loop (to_double (size (data s))) frequencies in
    let max_entropy := 8%float in
    set_compression (100 * (1 - entropy / max_entropy))%float (set_entropy entropy s).

(** *** calculate_chisquare *)

Definition count_bits_int (observed : list Z) (byte : byte) : list Z :=
  fold_left (fun ob bit => modify ob (bitValue byte bit) (fun c => wrap_int (c + 1)))
    bit_positions observed.

Definition count_byte_int (observed : list Z) (byte : byte) : list Z :=
  modify observed (byte_val byte) (fun c => wrap_int (c + 1)).

(** The loop [for (int i = 0; i < A; ++i)] over [observed]. *)
Definition chisquare_loop (expected : float) (observed : list Z) (A : Z) : float :=
  fold_left (fun chisquare i =>
               let diff := (to_double (nth (Z.to_nat i) observed 0%Z) - expected)%float in
               (chisquare + diff * diff / expected)%float)
    (map Z.of_nat (seq 0 (Z.to_nat A))) 0%float.

Definition calculate_chisquare (s : Ent) : Ent :=
  if streamOfBitsMode s then
    let expected := (8 * to_double (size (data s)) / 2)%float in
    let observed := fold_left count_bits_int (data s) (repeat 0 2) in
    let chisquare := chisquare_loop expected observed 2 in
    let degree_of_freedom := 1 in
    let z := sqrt (chisquare - to_double degree_of_freedom)%float in
    set_p_value (1 - norm_cdf z)%float (set_chisquare chisquare s)
  else
    let expected := (to_double (size (data s)) / to_double BYTE_VAL_COUNT)%float in
    let observed := fold_left count_byte_int (data s) (repeat 0 (Z.to_nat BYTE_VAL_COUNT)) in
    let chisquare := chisquare_loop expected observed BYTE_VAL_COUNT in
    let degree_of_freedom := BYTE_VAL_COUNT - 1 in
    let z := sqrt (chisquare - to_double degree_of_freedom)%float in
    set_p_value (1 - norm_cdf z)%float (set_chisquare chisquare s).

(** *** calculate_mean *)

Definition calculate_mean (s : Ent) : Ent :=
  let sum := fold_left (fun acc b => (acc + to_double (byte_val b))%float) (data s) 0%float in
  set_mean (sum / to_double (size (data s)))%float s.

(** *** calculate_pi *)

Definition radiusSquared : Z := wrap64 (Z.shiftl 1 48).

(** The loop [for (size_t i = 0; i < data.size() - 5; i += 6)]; the bound is
    computed in [size_t]. *)
Fixpoint pi_loop (fuel : nat) (d : list byte) (i hits total : Z) : outcome (Z * Z) :=
  if i <? wrap64 (size d - 5) then
    match fuel with
    | O => OutOfFuel
    | S fuel' =>
        b0 <- read d i ;;
        b1 <- read d (wrap64 (i + 1)) ;;
        b2 <- read d (wrap64 (i + 2)) ;;
        b3 <- read d (wrap64 (i + 3)) ;;
        b4 <- read d (wrap64 (i + 4)) ;;
        b5 <- read d (wrap64 (i + 5)) ;;
        let x := Z.lor (Z.lor (wrap64 (Z.shiftl b0 16)) (wrap64 (Z.shiftl b1 8))) b2 in
        let y := Z.lor (Z.lor (wrap64 (Z.shiftl b3 16)) (wrap64 (Z.shiftl b4 8))) b5 in
        let distanceSquared := wrap64 (wrap64 (x * x) + wrap64 (y * y)) in
        let hits := if distanceSquared <? radiusSquared then wrap64 (hits + 1) else hits in
        pi_loop fuel' d (wrap64 (i + 6)) hits (wrap64 (total + 1))
    end
  else Done (hits, total).

Definition calculate_pi (s : Ent) : outcome Ent :=
  ht <- pi_loop (S (length (data s))) (data s) 0 0 0 ;;
  let '(hits, total) := ht in
  Done (set_pi_estimate (4 * to_double hits / to_double total)%float s).

(** *** calculate_serial_correlation *)

Record sums := mkSums { sumX : Z; sumY : Z; sumXY : Z; sumX2 : Z; sumY2 : Z }.

(** The loop [for (size_t i = 1; i < data.size(); ++i)]. *)
Fixpoint serial_loop (fuel : nat) (d : list byte) (i : Z) (a : sums) : outcome sums :=
  if i <? size d then
    match fuel with
    | O => OutOfFuel
    | S fuel' =>
        X <- read d (wrap64 (i - 1)) ;;
        Y <- read d i ;;
        serial_loop fuel' d (wrap64 (i + 1))
          (mkSums (wrap64 (sumX a + X)) (wrap64 (sumY a + Y))
                  (wrap64 (sumXY a + wrap64 (X * Y)))
                  (wrap64 (sumX2 a + wrap64 (X * X)))
                  (wrap64 (sumY2 a + wrap64 (Y * Y))))
    end
  else Done a.

Definition calculate_serial_correlation (s : Ent) : outcome Ent :=
  a <- serial_loop (length (data s)) (data s) 1 (mkSums 0 0 0 0 0) ;;
  let n := to_double (wrap64 (size (data s) - 1)) in
  Done (set_serial_correlation
          ((n * to_double (sumXY a) - to_double (wrap64 (sumX a * sumY a)))
           / sqrt ((n * to_double (sumX2 a) - to_double (wrap64 (sumX a * sumX a)))
                   * (n * to_double (sumY2 a) - to_double (wrap64 (sumY a * sumY a)))))%float
          s).

(** *** calculate *)

(** <cctype> in the "C" locale. *)
Definition isupper (c : Z) : bool := (65 <=? c) && (c <=? 90).
Definition islower (c : Z) : bool := (97 <=? c) && (c <=? 122).
Definition isalpha (c : Z) : bool := isupper c || islower c.
Definition tolower (c : Z) : Z := if isupper c then c + 32 else c.

(** The loop [for (i = 0; i != data.size(); ++i)] of the fold-case pass. *)
Fixpoint fold_case_loop (fuel : nat) (d : list byte) (i : Z) : outcome (list byte) :=
  if negb (i =? size d) then
    match fuel with
    | O => OutOfFuel
    | S fuel' =>
        c <- read d i ;;
        if isalpha c && isupper c then
          c' <- read d i ;;
          fold_case_loop fuel' (write d i (uchar_of_Z (tolower c'))) (wrap64 (i + 1))
        else fold_case_loop fuel' d (wrap64 (i + 1))
    end
  else Done d.

(** [calculate()]: the statements that change the object.  The output
    statements that follow them read the fields and change nothing. *)
Definition calculate (s : Ent) : outcome Ent :=
  s <- (if foldCaseMode s
        then d <- fold_case_loop (length (data s)) (data s) 0 ;; Done (set_data d s)
        else Done s) ;;
  let s := calculate_entropy s in
  let s := calculate_chisquare s in
  let s := calculate_mean s in
  s <- calculate_pi s ;;
  calculate_serial_correlation s.

End Engine.

(** *** print_result: the serial-correlation line *)

Inductive serial_line : Type :=
| SerialValue (v : float)       (* "<value> (totally uncorrelated = 0.0)." *)
| SerialUndefined.              (* "undefined (all values equal!)." *)

Definition print_result_serial (s : Ent) : serial_line :=
  if (-99999 <=? serial_correlation s)%float
  then SerialValue (serial_correlation s)
  else SerialUndefined.

(** The accessors. *)
Definition get_entropy := entropy.
Definition get_compression := compression.
Definition get_chisquare := chisquare.
Definition get_p_value := p_value.
Definition get_mean := mean.
Definition get_pi_estimate := pi_estimate.
Definition get_serial_correlation := serial_correlation.

(** The setters of the public interface. *)
Definition setStreamOfBitsMode (mode : bool) (s : Ent) : Ent :=
  mkEnt (data s) (entropy s) (compression s) (chisquare s) (p_value s) (mean s)
    (pi_estimate s) (serial_correlation s) mode
    (printTableMode s) (foldCaseMode s) (terseMode s) (printResultMode s).
Definition setFoldCaseMode (mode : bool) (s : Ent) : Ent :=
  mkEnt (data s) (entropy s) (compression s) (chisquare s) (p_value s) (mean s)
    (pi_estimate s) (serial_correlation s) (streamOfBitsMode s)
    (printTableMode s) mode (terseMode s) (printResultMode s).

Definition completed {A} (o : outcome A) : bool :=
  match o with Done _ => true | _ => false end.

(** The five measurements in the order [calculate()] runs them. *)
Definition measure (lm : libm) (s : Ent) : outcome Ent :=
  s <- calculate_pi (calculate_mean (calculate_chisquare lm (calculate_entropy lm s))) ;;
  calculate_serial_correlation s.

(** ** The specification's vocabulary *)

(** Case folding: every ASCII uppercase letter becomes its lowercase letter. *)
Definition ascii_fold (b : byte) : byte :=
  if (65 <=? byte_val b) && (byte_val b <=? 90)
  then uchar_of_Z (byte_val b + 32)
  else b.

(** The buffer the measurements are taken on. *)
Definition analysed (s : Ent) : list byte :=
  if foldCaseMode s then map ascii_fold (data s) else data s.

Definition prepared (s : Ent) : Ent :=
  if foldCaseMode s then set_data (map ascii_fold (data s)) s else s.

(** Alphabets, symbols, counts. *)
Definition alphabet_size (bits : bool) : Z := if bits then 2 else 256.

Definition upto (n : Z) : list Z := map Z.of_nat (seq 0 (Z.to_nat n)).

Definition alphabet (bits : bool) : list Z := upto (alphabet_size bits).

(** The bits of a byte, least significant first. *)
Definition bits_lsb_first (b : byte) : list Z :=
  map (fun k => (byte_val b / 2 ^ k) mod 2) (upto 8).

Definition symbols (bits : bool) (buffer : list byte) : list Z :=
  if bits then flat_map bits_lsb_first buffer else map byte_val buffer.

Definition occurrences (i : Z) (syms : list Z) : Z :=
  Z.of_nat (count_occ Z.eq_dec syms i).

Definition total_samples (bits : bool) (buffer : list byte) : Z :=
  if bits then 8 * size buffer else size buffer.

Definition probability (bits : bool) (buffer : list byte) (i : Z) : float :=
  (to_double (occurrences i (symbols bits buffer))
   / to_double (total_samples bits buffer))%float.

(** [- sum p_i log2 p_i] over the symbols with [p_i > 0], in alphabet order:
    the sum, then its negation as the subtraction from 0 (a NaN apart,
    [0 - x] and [- x] are the same number, and a zero sum gives +0.0). *)
Definition float_sum (terms : list float) : float :=
  fold_left (fun acc t => (acc + t)%float) terms 0%float.

Definition shannon_entropy (lm : libm) (bits : bool) (buffer : list byte) : float :=
  (0 - float_sum
         (map (fun p => p * log2 lm p)
            (filter (fun p => 0 <? p) (map (probability bits buffer) (alphabet bits)))))%float.

Definition max_entropy (bits : bool) : float := if bits then 1%float else 8%float.

Definition compression_percentage (lm : libm) (bits : bool) (buffer : list byte) : float :=
  (100 * (1 - shannon_entropy lm bits buffer / max_entropy bits))%float.






(** Arithmetic mean of the byte values. *)
Definition byte_sum (buffer : list byte) : Z :=
  fold_right (fun b acc => byte_val b + acc) 0 buffer.

Definition arithmetic_mean (buffer : list byte) : float :=
  (to_double (byte_sum buffer) / to_double (size buffer))%float.

(** Monte Carlo pi: consecutive groups of six bytes. *)
Record group := mkGroup { g0 : byte; g1 : byte; g2 : byte; g3 : byte; g4 : byte; g5 : byte }.

Definition group_bytes (g : group) : list byte := [g0 g; g1 g; g2 g; g3 g; g4 g; g5 g].

Fixpoint groups (buffer : list byte) : list group :=
  match buffer with
  | b0 :: b1 :: b2 :: b3 :: b4 :: b5 :: rest => mkGroup b0 b1 b2 b3 b4 b5 :: groups rest
  | _ => []
  end.

Definition coordinate (b0 b1 b2 : byte) : Z :=
  Z.lor (Z.lor (Z.shiftl (byte_val b0) 16) (Z.shiftl (byte_val b1) 8)) (byte_val b2).

Definition group_x (g : group) : Z := coordinate (g0 g) (g1 g) (g2 g).
Definition group_y (g : group) : Z := coordinate (g3 g) (g4 g) (g5 g).

Definition is_hit (g : group) : bool :=
  group_x g * group_x g + group_y g * group_y g <? 2 ^ 48.

Definition hit_count (buffer : list byte) : Z := size (filter is_hit (groups buffer)).

(** Serial correlation: the five sums over the adjacent pairs [(prev, y)],
    as the loop accumulates them in 64-bit unsigned arithmetic. *)
Fixpoint pair_sums (prev : Z) (rest : list byte) (a : sums) : sums :=
  match rest with
  | [] => a
  | y :: rest' =>
      let Y := byte_val y in
      pair_sums Y rest'
        (mkSums (wrap64 (sumX a + prev)) (wrap64 (sumY a + Y))
                (wrap64 (sumXY a + wrap64 (prev * Y)))
                (wrap64 (sumX2 a + wrap64 (prev * prev)))
                (wrap64 (sumY2 a + wrap64 (Y * Y))))
  end.

(** ** Example inputs *)

Definition text_AbCdEf : list byte := ["A"; "b"; "C"; "d"; "E"; "f"]%byte.

(** "AbCdEf" with the fold-case flag set, in bit mode. *)
Definition folded_bits_input : Ent := new_Ent text_AbCdEf true true.

(** "AbCdEf" with the fold-case flag set, in byte mode. *)
Definition folded_bytes_input : Ent := new_Ent text_AbCdEf false true.

(** Thirteen bytes: the all-zero group, the all-ones group, one trailing byte. *)
Definition thirteen_bytes_input : Ent :=
  new_Ent [x00; x00; x00; x00; x00; x00; xff; xff; xff; xff; xff; xff; x2a]
    false false.

Definition empty_input : Ent := new_Ent [] false false.

Definition one_byte_input : Ent := new_Ent ["A"%byte] false false.

Definition five_bytes_input : Ent := new_Ent [x01; x02; x03; x04; x05] false false.

(** Six copies of the byte 7. *)
Definition constant_input : Ent := new_Ent (repeat x07 6) false false.

(** ** Binary64 rounding: auxiliary definitions *)

Module Binary64Defs.
Definition shl (m : positive) (k : nat) : positive := Nat.iter k xO m.
Definition rec0 (m : Z) : shr_record := {| shr_m := m; shr_r := false; shr_s := false |}.
End Binary64Defs.

(** * Binary64 rounding of integers *)

Module Binary64.

Import Binary64Defs.

Lemma shl_val m k : Zpos (shl m k) = Zpos m * 2 ^ Z.of_nat k.
Proof.
  induction k as [|k IH].
  - simpl. lia.
  - change (shl m (S k)) with (xO (shl m k)).
    rewrite Pos2Z.inj_xO, IH, Nat2Z.inj_succ, Z.pow_succ_r by lia. lia.
Qed.

Lemma shl_add m j k : shl (shl m j) k = shl m (k + j).
Proof. unfold shl. now rewrite Nat.iter_add. Qed.

Lemma digits_size m : digits2_pos m = Pos.size m.
Proof. induction m; simpl; congruence. Qed.

Lemma digits_shl m k :
  Zpos (digits2_pos (shl m k)) = Zpos (digits2_pos m) + Z.of_nat k.
Proof.
  induction k as [|k IH].
  - simpl. lia.
  - change (shl m (S k)) with (xO (shl m k)). simpl digits2_pos.
    rewrite Pos2Z.inj_succ, IH. lia.
Qed.

Lemma digits_lower m : 2 ^ (Zpos (digits2_pos m) - 1) <= Zpos m.
Proof.
  rewrite digits_size.
  pose proof (Pos.size_le m) as H.
  apply Pos2Z.pos_le_pos in H.
  rewrite Pos2Z.inj_pow in H.
  replace (Zpos (Pos.size m)) with (Z.succ (Zpos (Pos.size m) - 1)) in H by lia.
  rewrite Z.pow_succ_r in H by lia. lia.
Qed.

Lemma digits_upper m : Zpos m < 2 ^ Zpos (digits2_pos m).
Proof.
  rewrite digits_size.
  pose proof (Pos.size_gt m) as H.
  apply Pos2Z.pos_lt_pos in H. now rewrite Pos2Z.inj_pow in H.
Qed.

Lemma iter_pos_nat {A} (f : A -> A) p x :
  iter_pos f p x = Nat.iter (Pos.to_nat p) f x.
Proof.
  revert x. induction p as [p IH|p IH|]; intros x; simpl iter_pos.
  - rewrite !IH, Pos2Nat.inj_xI.
    replace (S (2 * Pos.to_nat p)) with (Pos.to_nat p + S (Pos.to_nat p))%nat by lia.
    rewrite Nat.iter_add. f_equal. now rewrite Nat.iter_succ_r.
  - rewrite !IH, Pos2Nat.inj_xO.
    replace (2 * Pos.to_nat p)%nat with (Pos.to_nat p + Pos.to_nat p)%nat by lia.
    now rewrite Nat.iter_add.
  - reflexivity.
Qed.

Lemma shr_nat mrs e n : 0 <= n ->
  shr mrs e n = (Nat.iter (Z.to_nat n) shr_1 mrs, e + n).
Proof.
  intros Hn. destruct n as [|p|p]; try lia.
  - simpl. now rewrite Z.add_0_r.
  - unfold shr. now rewrite iter_pos_nat.
Qed.

Lemma shr_1_shl m k :
  Nat.iter k shr_1 (rec0 (Zpos (shl m k))) = rec0 (Zpos m).
Proof.
  induction k as [|k IH].
  - reflexivity.
  - rewrite Nat.iter_succ_r. change (shl m (S k)) with (xO (shl m k)).
    simpl shr_1. exact IH.
Qed.

Lemma fexp_normal x : -1021 <= x -> fexp prec emax x = x - 53.
Proof. unfold fexp, SpecFloat.emin, prec, emax. lia. Qed.

Lemma shr_fexp_scale m k e :
  53 <= Zpos (digits2_pos m) -> -1021 <= Zpos (digits2_pos m) + e ->
  shr_fexp prec emax (Zpos (shl m k)) (e - Z.of_nat k) loc_Exact
  = shr_fexp prec emax (Zpos m) e loc_Exact.
Proof.
  intros Hd He. unfold shr_fexp. simpl Zdigits2. rewrite digits_shl.
  replace (Zpos (digits2_pos m) + Z.of_nat k + (e - Z.of_nat k))
    with (Zpos (digits2_pos m) + e) by lia.
  rewrite fexp_normal by lia.
  change (shr_record_of_loc ?x loc_Exact) with (rec0 x).
  rewrite !shr_nat by lia. f_equal; [|lia].
  replace (Z.to_nat (Zpos (digits2_pos m) + e - 53 - (e - Z.of_nat k)))
    with (Z.to_nat (Zpos (digits2_pos m) + e - 53 - e) + k)%nat by lia.
  now rewrite Nat.iter_add, shr_1_shl.
Qed.

Lemma binary_round_aux_scale s m k e :
  53 <= Zpos (digits2_pos m) -> -1021 <= Zpos (digits2_pos m) + e ->
  binary_round_aux prec emax s (Zpos (shl m k)) (e - Z.of_nat k) loc_Exact
  = binary_round_aux prec emax s (Zpos m) e loc_Exact.
Proof.
  intros Hd He. unfold binary_round_aux. now rewrite shr_fexp_scale.
Qed.

Lemma binary_round_aux_canonical s m e :
  Zpos (digits2_pos m) = 53 -> -1074 <= e <= 971 ->
  binary_round_aux prec emax s (Zpos m) e loc_Exact = S754_finite s m e.
Proof.
  intros Hd He.
  assert (Hs : shr_fexp prec emax (Zpos m) e loc_Exact = (rec0 (Zpos m), e)).
  { unfold shr_fexp. simpl Zdigits2. rewrite Hd, fexp_normal by lia.
    replace (53 + e - 53 - e) with 0 by lia. reflexivity. }
  unfold binary_round_aux. rewrite Hs. simpl shr_m. simpl loc_of_shr_record.
  simpl round_nearest_even. rewrite Hs. simpl shr_m.
  destruct (Z.leb_spec e (emax - prec)) as [_|Hc]; [reflexivity|].
  unfold emax, prec in Hc. lia.
Qed.

Lemma pos_iter_shl m p : Pos.iter xO m p = shl m (Pos.to_nat p).
Proof. unfold shl. now rewrite Pos2Nat.inj_iter. Qed.

Lemma binary_round_small s m e :
  Zpos (digits2_pos m) < 53 -> -1021 <= Zpos (digits2_pos m) + e ->
  binary_round prec emax s m e
  = binary_round_aux prec emax s
      (Zpos (shl m (Z.to_nat (53 - Zpos (digits2_pos m)))))
      (Zpos (digits2_pos m) + e - 53) loc_Exact.
Proof.
  intros Hd He. unfold binary_round, shl_align. rewrite fexp_normal by lia.
  destruct (Zpos (digits2_pos m) + e - 53 - e) as [|p|p] eqn:E; try lia.
  rewrite pos_iter_shl. do 3 f_equal. lia.
Qed.

Lemma binary_round_large s m e :
  53 <= Zpos (digits2_pos m) -> -1021 <= Zpos (digits2_pos m) + e ->
  binary_round prec emax s m e = binary_round_aux prec emax s (Zpos m) e loc_Exact.
Proof.
  intros Hd He. unfold binary_round, shl_align. rewrite fexp_normal by lia.
  destruct (Zpos (digits2_pos m) + e - 53 - e) as [|p|p] eqn:E; try lia; reflexivity.
Qed.

(** Rounding sees the value only: rescaling the mantissa by a power of two
    and compensating in the exponent leaves the rounded float unchanged. *)
Lemma binary_round_scale s m k e :
  -1021 <= Zpos (digits2_pos m) + e ->
  binary_round prec emax s (shl m k) (e - Z.of_nat k) = binary_round prec emax s m e.
Proof.
  intros He. set (d := Zpos (digits2_pos m)) in *.
  assert (Hdk : Zpos (digits2_pos (shl m k)) = d + Z.of_nat k) by apply digits_shl.
  destruct (Z.lt_ge_cases d 53) as [Hd|Hd].
  - rewrite (binary_round_small s m e) by (fold d; lia). fold d.
    set (j := Z.to_nat (53 - d)).
    assert (Hj : Zpos (digits2_pos (shl m j)) = 53).
    { rewrite digits_shl. fold d. unfold j. lia. }
    destruct (Z.lt_ge_cases (d + Z.of_nat k) 53) as [Hk|Hk].
    + rewrite binary_round_small by (rewrite Hdk; lia).
      rewrite Hdk, shl_add. f_equal; [|lia]. do 2 f_equal. unfold j. lia.
    + rewrite binary_round_large by (rewrite Hdk; lia).
      replace k with (Z.to_nat (d + Z.of_nat k - 53) + j)%nat at 1 by (unfold j; lia).
      rewrite <- shl_add.
      replace (e - Z.of_nat k)
        with (d + e - 53 - Z.of_nat (Z.to_nat (d + Z.of_nat k - 53))) by lia.
      apply binary_round_aux_scale; rewrite Hj; lia.
  - rewrite (binary_round_large s m e) by (fold d; lia).
    rewrite binary_round_large by (rewrite Hdk; lia).
    apply binary_round_aux_scale; fold d; lia.
Qed.

Lemma binary_normalize_scale z k :
  0 <= k ->
  binary_normalize prec emax (z * 2 ^ k) (- k) false
  = binary_normalize prec emax z 0 false.
Proof.
  intros Hk. pose proof (Z.pow_pos_nonneg 2 k) as Hp.
  destruct z as [|p|p].
  - reflexivity.
  - assert (E : Zpos p * 2 ^ k = Zpos (shl p (Z.to_nat k))).
    { rewrite shl_val, Z2Nat.id by lia. reflexivity. }
    rewrite E. simpl binary_normalize.
    replace (- k) with (0 - Z.of_nat (Z.to_nat k)) by lia.
    apply binary_round_scale. lia.
  - assert (E : Zneg p * 2 ^ k = Zneg (shl p (Z.to_nat k))).
    { change (Zneg p) with (- Zpos p). rewrite Z.mul_opp_l.
      rewrite <- (Z2Nat.id k) at 1 by lia. now rewrite <- shl_val. }
    rewrite E. simpl binary_normalize.
    replace (- k) with (0 - Z.of_nat (Z.to_nat k)) by lia.
    apply binary_round_scale. lia.
Qed.

(** The canonical binary64 representation of an integer below 2^53. *)
Lemma binary_normalize_exact p :
  Zpos p < 2 ^ 53 ->
  binary_normalize prec emax (Zpos p) 0 false
  = S754_finite false (shl p (Z.to_nat (53 - Zpos (digits2_pos p))))
      (Zpos (digits2_pos p) - 53).
Proof.
  intros Hp. simpl binary_normalize.
  assert (Hd : Zpos (digits2_pos p) <= 53).
  { pose proof (digits_lower p).
    destruct (Z.le_gt_cases (Zpos (digits2_pos p)) 53); auto.
    assert (2 ^ 53 <= 2 ^ (Zpos (digits2_pos p) - 1)) by (apply Z.pow_le_mono_r; lia).
    lia. }
  destruct (Z.eq_dec (Zpos (digits2_pos p)) 53) as [E|E].
  - rewrite binary_round_large by lia. rewrite E. simpl Z.to_nat.
    apply binary_round_aux_canonical; [exact E| lia].
  - rewrite binary_round_small by lia.
    replace (Zpos (digits2_pos p) + 0 - 53) with (Zpos (digits2_pos p) - 53) by lia.
    apply binary_round_aux_canonical; [|lia].
    rewrite digits_shl. lia.
Qed.

Lemma shl_align_val m ex ez :
  ez <= ex -> Zpos (fst (shl_align m ex ez)) = Zpos m * 2 ^ (ex - ez).
Proof.
  intros H. unfold shl_align.
  destruct (ez - ex) as [|p|p] eqn:E; try lia.
  - replace (ex - ez) with 0 by lia. simpl fst. lia.
  - simpl fst. rewrite pos_iter_shl, shl_val. do 2 f_equal. lia.
Qed.

Lemma valid_binary_normalize z :
  0 <= z < 2 ^ 63 -> valid_binary (binary_normalize prec emax z 0 false) = true.
Proof.
  intros Hz.
  assert (E : Uint63.to_Z (Uint63.of_Z z) = z).
  { rewrite Uint63.of_Z_spec. apply Z.mod_small. exact Hz. }
  rewrite <- E at 1. rewrite <- of_uint63_spec. apply Prim2SF_valid.
Qed.

Lemma Prim2SF_to_double z :
  0 <= z < 2 ^ 63 -> Prim2SF (to_double z) = binary_normalize prec emax z 0 false.
Proof. intros Hz. apply Prim2SF_SF2Prim. now apply valid_binary_normalize. Qed.

Lemma digits_le_53 p : Zpos p < 2 ^ 53 -> Zpos (digits2_pos p) <= 53.
Proof.
  intros Hp. pose proof (digits_lower p).
  destruct (Z.le_gt_cases (Zpos (digits2_pos p)) 53); auto.
  assert (2 ^ 53 <= 2 ^ (Zpos (digits2_pos p) - 1)) by (apply Z.pow_le_mono_r; lia).
  lia.
Qed.

Lemma SFadd_exact a b :
  0 <= a < 2 ^ 53 -> 0 <= b < 2 ^ 53 ->
  SF64add (binary_normalize prec emax a 0 false) (binary_normalize prec emax b 0 false)
  = binary_normalize prec emax (a + b) 0 false.
Proof.
  intros Ha Hb.
  destruct a as [|pa|pa]; [|destruct b as [|pb|pb]|]; try lia.
  - destruct b as [|pb|pb]; try lia; [reflexivity|].
    rewrite Z.add_0_l, binary_normalize_exact by lia. reflexivity.
  - rewrite Z.add_0_r, binary_normalize_exact by lia. reflexivity.
  - rewrite (binary_normalize_exact pa), (binary_normalize_exact pb) by lia.
    pose proof (digits_le_53 pa ltac:(lia)) as Hda.
    pose proof (digits_le_53 pb ltac:(lia)) as Hdb.
    set (da := Zpos (digits2_pos pa)) in *. set (db := Zpos (digits2_pos pb)) in *.
    unfold SF64add, SFadd, cond_Zopp.
    set (ez := Z.min (da - 53) (db - 53)).
    rewrite !shl_align_val by (unfold ez; lia).
    rewrite !shl_val, !Z2Nat.id by lia.
    rewrite <- !Z.mul_assoc, <- !Z.pow_add_r by (unfold ez; lia).
    replace (53 - da + (da - 53 - ez)) with (- ez) by lia.
    replace (53 - db + (db - 53 - ez)) with (- ez) by lia.
    rewrite <- Z.mul_add_distr_r.
    replace ez with (- - ez) at 2 by lia.
    apply binary_normalize_scale. unfold ez. lia.
Qed.

Lemma digits_mul_lower pa pb :
  Zpos (digits2_pos pa) + Zpos (digits2_pos pb) - 1 <= Zpos (digits2_pos (pa * pb)).
Proof.
  pose proof (digits_lower pa) as Ha. pose proof (digits_lower pb) as Hb.
  pose proof (digits_upper (pa * pb)) as Hab.
  set (da := Zpos (digits2_pos pa)) in *. set (db := Zpos (digits2_pos pb)) in *.
  set (d := Zpos (digits2_pos (pa * pb))) in *.
  assert (0 < da) by (unfold da; lia). assert (0 < db) by (unfold db; lia).
  assert (0 < d) by (unfold d; lia).
  destruct (Z.le_gt_cases (da + db - 1) d) as [|Hc]; auto.
  assert (2 ^ d <= 2 ^ (da - 1 + (db - 1))) by (apply Z.pow_le_mono_r; lia).
  rewrite Z.pow_add_r in * by lia.
  rewrite Pos2Z.inj_mul in Hab.
  assert (0 < 2 ^ (da - 1)) by (apply Z.pow_pos_nonneg; lia).
  assert (0 < 2 ^ (db - 1)) by (apply Z.pow_pos_nonneg; lia).
  nia.
Qed.

Lemma SFmul_positive pa pb :
  Zpos pa < 2 ^ 53 -> Zpos pb < 2 ^ 53 ->
  let K := (Z.to_nat (53 - Zpos (digits2_pos pa)) + Z.to_nat (53 - Zpos (digits2_pos pb)))%nat in
  SF64mul (binary_normalize prec emax (Zpos pa) 0 false)
          (binary_normalize prec emax (Zpos pb) 0 false)
  = binary_round_aux prec emax false (Zpos (shl (pa * pb) K)) (0 - Z.of_nat K) loc_Exact
  /\ 53 <= Zpos (digits2_pos (shl (pa * pb) K)) <= 106.
Proof.
  intros Ha Hb K.
  pose proof (digits_le_53 pa Ha) as Hda. pose proof (digits_le_53 pb Hb) as Hdb.
  pose proof (digits_mul_lower pa pb) as Hd.
  split.
  - rewrite (binary_normalize_exact pa), (binary_normalize_exact pb) by lia.
    unfold SF64mul, SFmul. cbn [xorb]. f_equal.
    + change (Zpos (?x * ?y)) with (Zpos x * Zpos y).
      rewrite !shl_val. unfold K. rewrite Nat2Z.inj_add, Z.pow_add_r by lia.
      rewrite Pos2Z.inj_mul. ring.
    + unfold K. lia.
  - rewrite digits_shl. split; [unfold K; lia|].
    pose proof (digits_lower (pa * pb)) as Hl.
    rewrite Pos2Z.inj_mul in Hl.
    destruct (Z.le_gt_cases (Zpos (digits2_pos (pa * pb)))
                (Zpos (digits2_pos pa) + Zpos (digits2_pos pb))) as [|Hc]; [unfold K; lia|].
    pose proof (digits_upper pa). pose proof (digits_upper pb).
    assert (2 ^ (Zpos (digits2_pos pa) + Zpos (digits2_pos pb))
            <= 2 ^ (Zpos (digits2_pos (pa * pb)) - 1)) by (apply Z.pow_le_mono_r; lia).
    rewrite Z.pow_add_r in * by lia. nia.
Qed.

Lemma SFmul_exact a b :
  0 <= a < 2 ^ 53 -> 0 <= b < 2 ^ 53 ->
  SF64mul (binary_normalize prec emax a 0 false) (binary_normalize prec emax b 0 false)
  = binary_normalize prec emax (a * b) 0 false.
Proof.
  intros Ha Hb.
  destruct a as [|pa|pa]; [|destruct b as [|pb|pb]|]; try lia.
  - destruct b as [|pb|pb]; try lia; [reflexivity|].
    rewrite binary_normalize_exact by lia. reflexivity.
  - rewrite Z.mul_0_r, binary_normalize_exact by lia. reflexivity.
  - destruct (SFmul_positive pa pb) as [E Hd]; try lia.
    rewrite E. change (Zpos pa * Zpos pb) with (Zpos (pa * pb)).
    simpl binary_normalize.
    rewrite <- binary_round_large by lia.
    apply binary_round_scale. lia.
Qed.

End Binary64.

Theorem to_double_add a b :
  0 <= a < 2 ^ 53 -> 0 <= b < 2 ^ 53 ->
  (to_double a + to_double b)%float = to_double (a + b).
Proof.
  intros Ha Hb. unfold to_double at 3.
  rewrite <- Binary64.SFadd_exact by lia.
  rewrite <- !Binary64.Prim2SF_to_double by lia.
  unfold SF64add. rewrite <- FloatAxioms.add_spec. symmetry. apply SF2Prim_Prim2SF.
Qed.

Theorem to_double_mul a b :
  0 <= a < 2 ^ 53 -> 0 <= b < 2 ^ 53 ->
  (to_double a * to_double b)%float = to_double (a * b).
Proof.
  intros Ha Hb. unfold to_double at 3.
  rewrite <- Binary64.SFmul_exact by lia.
  rewrite <- !Binary64.Prim2SF_to_double by lia.
  unfold SF64mul. rewrite <- FloatAxioms.mul_spec. symmetry. apply SF2Prim_Prim2SF.
Qed.

(** * Finiteness of a rounded product, and [x - x] *)

Module Binary64Finite.
Import Binary64Defs Binary64.

Lemma shr_1_m R : 0 <= shr_m R -> shr_m (shr_1 R) = shr_m R / 2.
Proof.
  destruct R as [m r s]. cbn [shr_m]. intros Hm.
  destruct m as [|[p|p|]|p]; cbn [shr_1 shr_m]; try lia.
  - reflexivity.
  - apply (Z.div_unique _ _ _ 1); lia.
  - apply (Z.div_unique _ _ _ 0); lia.
  - reflexivity.
Qed.

Lemma iter_shr_m n : forall R,
  0 <= shr_m R ->
  shr_m (Nat.iter n shr_1 R) = shr_m R / 2 ^ Z.of_nat n.
Proof.
  induction n as [|n IH]; intros R HR.
  - simpl. now rewrite Z.div_1_r.
  - rewrite Nat.iter_succ.
    assert (0 <= shr_m (Nat.iter n shr_1 R)).
    { rewrite IH by exact HR. apply Z.div_pos; [exact HR|]. apply Z.pow_pos_nonneg; lia. }
    rewrite shr_1_m by assumption. rewrite IH by exact HR.
    rewrite Nat2Z.inj_succ, Z.pow_succ_r by lia.
    rewrite Z.div_div by (try apply Z.pow_pos_nonneg; lia).
    f_equal. lia.
Qed.

Lemma round_nearest_even_bounds m l :
  m <= round_nearest_even m l <= m + 1.
Proof.
  destruct l as [|[| |]]; cbn [round_nearest_even]; try lia.
  destruct (Z.even m); lia.
Qed.

Lemma binary_round_aux_finite s m e :
  53 <= Zpos (digits2_pos m) ->
  -1021 <= Zpos (digits2_pos m) + e <= 1023 ->
  exists m' e', binary_round_aux prec emax s (Zpos m) e loc_Exact = S754_finite s m' e'.
Proof.
  intros Hd He. set (D := Zpos (digits2_pos m)) in *.
  pose proof (digits_lower m) as Hl. pose proof (digits_upper m) as Hu. fold D in Hl, Hu.
  unfold binary_round_aux.
  (* first shift *)
  assert (E1 : shr_fexp prec emax (Zpos m) e loc_Exact
               = (Nat.iter (Z.to_nat (D - 53)) shr_1 (rec0 (Zpos m)), e + (D - 53))).
  { unfold shr_fexp. cbn [Zdigits2]. fold D. rewrite fexp_normal by lia.
    change (shr_record_of_loc (Zpos m) loc_Exact) with (rec0 (Zpos m)).
    rewrite shr_nat by lia. f_equal; [f_equal|]; lia. }
  rewrite E1.
  set (R1 := Nat.iter (Z.to_nat (D - 53)) shr_1 (rec0 (Zpos m))).
  assert (Hm1 : shr_m R1 = Zpos m / 2 ^ (D - 53)).
  { unfold R1. rewrite iter_shr_m by (cbn; lia). cbn [shr_m rec0].
    now rewrite Z2Nat.id by lia. }
  assert (Hb1 : 2 ^ 52 <= shr_m R1 < 2 ^ 53).
  { rewrite Hm1.
    assert (Hp : 0 < 2 ^ (D - 53)) by (apply Z.pow_pos_nonneg; lia).
    assert (Hs1 : 2 ^ (D - 1) = 2 ^ 52 * 2 ^ (D - 53))
      by (rewrite <- Z.pow_add_r by lia; f_equal; lia).
    assert (Hs2 : 2 ^ D = 2 ^ 53 * 2 ^ (D - 53))
      by (rewrite <- Z.pow_add_r by lia; f_equal; lia).
    split.
    - apply Z.div_le_lower_bound; lia.
    - apply Z.div_lt_upper_bound; lia. }
  pose proof (round_nearest_even_bounds (shr_m R1) (loc_of_shr_record R1)) as Hr.
  set (r := round_nearest_even (shr_m R1) (loc_of_shr_record R1)) in *.
  destruct r as [|pr|pr] eqn:Er; try lia.
  pose proof (digits_lower pr) as Hlr. pose proof (digits_upper pr) as Hur.
  set (dr := Zpos (digits2_pos pr)) in *.
  assert (Hdr : 53 <= dr <= 54).
  { split.
    - destruct (Z.le_gt_cases 53 dr); auto.
      assert (2 ^ dr <= 2 ^ 52) by (apply Z.pow_le_mono_r; lia). lia.
    - destruct (Z.le_gt_cases dr 54); auto.
      assert (2 ^ 54 <= 2 ^ (dr - 1)) by (apply Z.pow_le_mono_r; lia). lia. }
  (* second shift *)
  assert (E2 : shr_fexp prec emax (Zpos pr) (e + (D - 53)) loc_Exact
               = (Nat.iter (Z.to_nat (dr - 53)) shr_1 (rec0 (Zpos pr)),
                  e + (D - 53) + (dr - 53))).
  { unfold shr_fexp. cbn [Zdigits2]. fold dr. rewrite fexp_normal by lia.
    change (shr_record_of_loc (Zpos pr) loc_Exact) with (rec0 (Zpos pr)).
    rewrite shr_nat by lia. f_equal; [f_equal|]; lia. }
  rewrite E2.
  set (R2 := Nat.iter (Z.to_nat (dr - 53)) shr_1 (rec0 (Zpos pr))).
  assert (Hm2 : 0 < shr_m R2).
  { unfold R2. rewrite iter_shr_m by (cbn; lia). cbn [shr_m rec0].
    rewrite Z2Nat.id by lia.
    apply Z.div_str_pos. split; [apply Z.pow_pos_nonneg; lia|].
    assert (2 ^ (dr - 53) <= 2 ^ 1) by (apply Z.pow_le_mono_r; lia).
    lia. }
  destruct (shr_m R2) as [|m2|m2]; try lia.
  destruct (Z.leb_spec (e + (D - 53) + (dr - 53)) (emax - prec)) as [_|Hc].
  - eauto.
  - unfold emax, prec in Hc. lia.
Qed.

Lemma product_finite a b :
  0 <= a < 2 ^ 53 -> 0 <= b < 2 ^ 53 ->
  Prim2SF (to_double a * to_double b) = S754_zero false
  \/ exists m e, Prim2SF (to_double a * to_double b) = S754_finite false m e.
Proof.
  intros Ha Hb.
  rewrite FloatAxioms.mul_spec, !Prim2SF_to_double by lia.
  destruct a as [|pa|pa]; [|destruct b as [|pb|pb]|]; try lia.
  - left. destruct b as [|pb|pb]; try lia; [reflexivity|].
    rewrite binary_normalize_exact by lia. reflexivity.
  - left. rewrite binary_normalize_exact by lia. reflexivity.
  - right. destruct (SFmul_positive pa pb) as [E Hd]; try lia.
    rewrite E. apply binary_round_aux_finite; lia.
Qed.

Lemma sub_self x :
  (Prim2SF x = S754_zero false \/ exists m e, Prim2SF x = S754_finite false m e) ->
  (x - x)%float = 0%float.
Proof.
  intros H. apply Prim2SF_inj. rewrite FloatAxioms.sub_spec.
  destruct H as [-> | [m [e ->]]].
  - reflexivity.
  - unfold SF64sub, SFsub, cond_Zopp. now rewrite Z.sub_diag.
Qed.

End Binary64Finite.

(** [double(a) * double(b) - double(a * b)] vanishes: both are the correctly
    rounded product. *)
Theorem product_minus_product a b :
  0 <= a < 2 ^ 53 -> 0 <= b < 2 ^ 53 ->
  (to_double a * to_double b - to_double (a * b))%float = 0%float.
Proof.
  intros Ha Hb. rewrite <- to_double_mul by lia.
  apply Binary64Finite.sub_self. now apply Binary64Finite.product_finite.
Qed.

(** * Subtracting from zero: [(0 - s) - t = 0 - (s + t)] *)

Module Binary64Opp.
Import Binary64Defs Binary64 Binary64Finite.

Lemma fexp_lower x : -1074 <= fexp prec emax x.
Proof. unfold fexp, SpecFloat.emin, prec, emax. lia. Qed.

Lemma fexp_cases x :
  fexp prec emax x = -1074 \/ fexp prec emax x = x - 53.
Proof. unfold fexp, SpecFloat.emin, prec, emax. lia. Qed.

(** Shifting a positive mantissa down to its working precision leaves a
    positive mantissa. *)
Lemma shr_fexp_positive m e :
  -1074 <= e ->
  0 < shr_m (fst (shr_fexp prec emax (Zpos m) e loc_Exact))
  /\ -1074 <= snd (shr_fexp prec emax (Zpos m) e loc_Exact).
Proof.
  intros He. unfold shr_fexp. cbn [Zdigits2].
  change (shr_record_of_loc (Zpos m) loc_Exact) with (rec0 (Zpos m)).
  set (d := Zpos (digits2_pos m)).
  pose proof (digits_lower m) as Hl. fold d in Hl.
  destruct (Z.le_gt_cases (fexp prec emax (d + e) - e) 0) as [Hn|Hn].
  - assert (E : shr (rec0 (Zpos m)) e (fexp prec emax (d + e) - e) = (rec0 (Zpos m), e)).
    { unfold shr. destruct (fexp prec emax (d + e) - e); try reflexivity. lia. }
    rewrite E. cbn. lia.
  - rewrite shr_nat by lia. cbn [fst snd].
    rewrite iter_shr_m by (cbn; lia). cbn [shr_m rec0].
    rewrite Z2Nat.id by lia.
    destruct (fexp_cases (d + e)) as [Hf|Hf]; [lia|].
    rewrite Hf in *. replace (d + e - 53 - e) with (d - 53) in * by lia.
    split; [|lia].
    apply Z.div_str_pos. split; [apply Z.pow_pos_nonneg; lia|].
    assert (2 ^ (d - 53) <= 2 ^ (d - 1)) by (apply Z.pow_le_mono_r; lia).
    lia.
Qed.

(** The sign of [binary_round_aux] is a tag: the rounded magnitude does not
    depend on it, and it is never zero for an exponent of a valid float. *)
Lemma binary_round_aux_shape m e :
  -1074 <= e ->
  (exists m' e', forall s,
      binary_round_aux prec emax s (Zpos m) e loc_Exact = S754_finite s m' e')
  \/ (forall s, binary_round_aux prec emax s (Zpos m) e loc_Exact = S754_infinity s).
Proof.
  intros He. unfold binary_round_aux.
  pose proof (shr_fexp_positive m e He) as [H1 H1e].
  destruct (shr_fexp prec emax (Zpos m) e loc_Exact) as [mrs' e'] eqn:E1.
  cbn [fst snd] in H1, H1e.
  pose proof (round_nearest_even_bounds (shr_m mrs') (loc_of_shr_record mrs')) as Hr.
  destruct (round_nearest_even (shr_m mrs') (loc_of_shr_record mrs')) as [|pr|pr];
    try lia.
  pose proof (shr_fexp_positive pr e' H1e) as [H2 _].
  destruct (shr_fexp prec emax (Zpos pr) e' loc_Exact) as [mrs'' e''] eqn:E2.
  cbn [fst] in H2.
  destruct (shr_m mrs'') as [|m2|m2]; try lia.
  destruct (Z.leb e'' (emax - prec)).
  - left. exists m2, e''. reflexivity.
  - right. reflexivity.
Qed.

Lemma binary_round_shape m e :
  -1074 <= e ->
  (exists m' e', forall s, binary_round prec emax s m e = S754_finite s m' e')
  \/ (forall s, binary_round prec emax s m e = S754_infinity s).
Proof.
  intros He. unfold binary_round.
  destruct (shl_align m e (fexp prec emax (Zpos (digits2_pos m) + e))) as [mz ez] eqn:E.
  apply binary_round_aux_shape.
  unfold shl_align in E.
  destruct (fexp prec emax (Zpos (digits2_pos m) + e) - e); inversion E; subst;
    first [exact He | apply fexp_lower].
Qed.

Lemma binary_normalize_opp z e :
  -1074 <= e ->
  binary_normalize prec emax (- z) e false
  = SF64sub (S754_zero false) (binary_normalize prec emax z e false).
Proof.
  intros He. destruct z as [|m|m]; cbn [Z.opp binary_normalize].
  - reflexivity.
  - destruct (binary_round_shape m e He) as [[m' [e' H]]|H]; rewrite !H; reflexivity.
  - destruct (binary_round_shape m e He) as [[m' [e' H]]|H]; rewrite !H; reflexivity.
Qed.

Lemma valid_exponent s m e :
  valid_binary (S754_finite s m e) = true -> -1074 <= e.
Proof.
  cbn [SpecFloat.valid_binary]. unfold bounded, canonical_mantissa.
  intros H. apply andb_prop in H. destruct H as [H _].
  apply Z.eqb_eq in H. rewrite <- H. apply fexp_lower.
Qed.

Lemma SFsub_zero_sub S T :
  valid_binary S = true -> valid_binary T = true ->
  SF64sub (SF64sub (S754_zero false) S) T
  = SF64sub (S754_zero false) (SF64add S T).
Proof.
  intros HS HT.
  destruct S as [sx|sx| |sx mx ex]; destruct T as [sy|sy| |sy my ey];
    try reflexivity;
    try (destruct sx; destruct sy; reflexivity);
    try (destruct sx; reflexivity);
    try (destruct sy; reflexivity).
  pose proof (valid_exponent _ _ _ HS) as Hx. pose proof (valid_exponent _ _ _ HT) as Hy.
  unfold SF64sub at 1 2. cbn [SFsub]. unfold SF64add. cbn [SFadd].
  cbv zeta.
  set (X := Zpos (fst (shl_align mx ex (Z.min ex ey)))).
  set (Y := Zpos (fst (shl_align my ey (Z.min ex ey)))).
  replace (cond_Zopp (negb sx) X - cond_Zopp sy Y)
    with (- (cond_Zopp sx X + cond_Zopp sy Y))
    by (destruct sx, sy; cbn [cond_Zopp negb]; lia).
  apply binary_normalize_opp. lia.
Qed.

End Binary64Opp.

(** Accumulating by subtraction from 0 is subtracting the accumulated sum
    from 0, bit for bit. *)
Theorem sub_zero_sub (s t : float) : (0 - s - t = 0 - (s + t))%float.
Proof.
  apply Prim2SF_inj.
  rewrite !FloatAxioms.sub_spec, FloatAxioms.add_spec.
  change (Prim2SF 0) with (S754_zero false).
  apply Binary64Opp.SFsub_zero_sub; apply Prim2SF_valid.
Qed.

(** [0 - x] is the number [- x]: they differ in the sign of a zero only. *)
Theorem sub_zero_is_opp (x : float) : x = nan \/ (0 - x =? - x)%float = true.
Proof.
  destruct (Prim2SF x) as [s|s| |s m e] eqn:E.
  - right. rewrite FloatAxioms.eqb_spec, FloatAxioms.sub_spec, FloatAxioms.opp_spec, E.
    destruct s; reflexivity.
  - right. rewrite FloatAxioms.eqb_spec, FloatAxioms.sub_spec, FloatAxioms.opp_spec, E.
    destruct s; reflexivity.
  - left. rewrite <- (SF2Prim_Prim2SF x), E. reflexivity.
  - right. rewrite FloatAxioms.eqb_spec, FloatAxioms.sub_spec, FloatAxioms.opp_spec, E.
    change (Prim2SF 0) with (S754_zero false).
    unfold SF64sub. cbn [SFsub SFopp]. unfold SFeqb. cbn [SFcompare].
    rewrite Z.compare_refl, Pos.compare_cont_refl.
    destruct s; reflexivity.
Qed.

Lemma fold_sub_from_zero (l : list float) : forall s,
  fold_left (fun acc t => acc - t)%float l (0 - s)%float
  = (0 - fold_left (fun acc t => acc + t)%float l s)%float.
Proof.
  induction l as [|t l IH]; intros s; [reflexivity|].
  cbn [fold_left]. rewrite sub_zero_sub. apply IH.
Qed.

(** * Bytes and machine arithmetic *)

Lemma byte_val_range b : 0 <= byte_val b < 256.
Proof.
  unfold byte_val. pose proof (Byte.to_N_bounded b). lia.
Qed.

Lemma wrap64_small z : 0 <= z < 2 ^ 64 -> wrap64 z = z.
Proof. intros H. unfold wrap64. now apply Z.mod_small. Qed.


Lemma size_app {A} (u v : list A) : size (u ++ v) = size u + size v.
Proof. unfold size. rewrite length_app. lia. Qed.

Lemma size_nonneg {A} (v : list A) : 0 <= size v.
Proof. unfold size. lia. Qed.

Lemma size_map {A B} (f : A -> B) v : size (map f v) = size v.
Proof. unfold size. now rewrite length_map. Qed.

Lemma read_app_here pre b rest :
  read (pre ++ b :: rest) (size pre) = Done (byte_val b).
Proof.
  unfold read, size. rewrite Nat2Z.id, nth_error_app2, Nat.sub_diag by lia.
  reflexivity.
Qed.

Lemma read_past d i : size d <= i -> read d i = OutOfRange i.
Proof.
  intros H. unfold read, size in *.
  destruct (nth_error d (Z.to_nat i)) eqn:E; [|reflexivity].
  assert (Z.to_nat i < length d)%nat by (apply nth_error_Some; congruence). lia.
Qed.

(** * Frequency tables *)

Lemma upto_length n : length (upto n) = Z.to_nat n.
Proof. unfold upto. now rewrite length_map, length_seq. Qed.


Lemma modify_nth_seq {T} (g : Z -> T) f n a k :
  (k < n)%nat ->
  modify_nth k f (map g (map Z.of_nat (seq a n)))
  = map (fun j => if j =? Z.of_nat (a + k) then f (g j) else g j)
      (map Z.of_nat (seq a n)).
Proof.
  revert a k. induction n as [|n IH]; intros a k Hk; [lia|].
  destruct k as [|k]; simpl.
  - rewrite Nat.add_0_r, Z.eqb_refl. f_equal.
    rewrite !map_map. apply map_ext_in. intros j Hj. apply in_seq in Hj.
    destruct (Z.eqb_spec (Z.of_nat j) (Z.of_nat a)); [lia|reflexivity].
  - destruct (Z.eqb_spec (Z.of_nat a) (Z.of_nat (a + S k))); [lia|]. f_equal.
    rewrite IH by lia. now rewrite Nat.add_succ_r.
Qed.

Lemma modify_upto {T} (g : Z -> T) f n i :
  0 <= i < n ->
  modify (map g (upto n)) i f
  = map (fun j => if j =? i then f (g j) else g j) (upto n).
Proof.
  intros Hi. unfold modify, upto. rewrite modify_nth_seq by lia.
  apply map_ext. intros j. simpl. now rewrite Z2Nat.id by lia.
Qed.

Lemma occurrences_nil i : occurrences i [] = 0.
Proof. reflexivity. Qed.

Lemma occurrences_cons i x syms :
  occurrences i (x :: syms) = (if x =? i then 1 else 0) + occurrences i syms.
Proof.
  unfold occurrences. simpl.
  destruct (Z.eq_dec x i) as [->|Hne].
  - rewrite Z.eqb_refl. lia.
  - destruct (Z.eqb_spec x i); [contradiction|lia].
Qed.

Lemma occurrences_nonneg i syms : 0 <= occurrences i syms.
Proof. unfold occurrences. lia. Qed.

Lemma occurrences_le_size i syms : occurrences i syms <= size syms.
Proof.
  unfold occurrences, size. pose proof (count_occ_bound Z.eq_dec i syms). lia.
Qed.

Section Counting.

Context {T : Type}.
Variable inj : Z -> T.
Variable inc : T -> T.
Variable bound : Z.
Hypothesis inc_inj : forall c, 0 <= c < bound -> inc (inj c) = inj (c + 1).

(** A table that holds [inj (c j)] for every symbol [j], incremented once for
    each symbol of a stream, holds the counts of the stream on top of [c]. *)
Lemma count_table n syms : forall c,
  (forall x, In x syms -> 0 <= x < n) ->
  (forall j, 0 <= c j) ->
  (forall j, c j + occurrences j syms <= bound) ->
  fold_left (fun t x => modify t x inc) syms (map (fun j => inj (c j)) (upto n))
  = map (fun j => inj (c j + occurrences j syms)) (upto n).
Proof.
  induction syms as [|x syms IH]; intros c Hin Hc Hb.
  - simpl. apply map_ext. intros j. now rewrite occurrences_nil, Z.add_0_r.
  - simpl fold_left.
    rewrite (modify_upto (fun j => inj (c j))) by (apply Hin; now left).
    assert (Hx : c x < bound).
    { specialize (Hb x). rewrite occurrences_cons, Z.eqb_refl in Hb.
      pose proof (occurrences_nonneg x syms). lia. }
    rewrite (map_ext _ (fun j => inj ((fun j => if j =? x then c j + 1 else c j) j))).
    2:{ intros j. destruct (Z.eqb_spec j x) as [->|]; [|reflexivity].
        apply inc_inj. split; [apply Hc|exact Hx]. }
    rewrite IH.
    + apply map_ext. intros j. rewrite occurrences_cons. f_equal.
      rewrite (Z.eqb_sym x j). destruct (j =? x); lia.
    + intros y Hy. apply Hin. now right.
    + intros j. specialize (Hc j). destruct (j =? x); lia.
    + intros j. specialize (Hb j). rewrite occurrences_cons, (Z.eqb_sym x j) in Hb.
      destruct (j =? x); lia.
Qed.

End Counting.

Lemma repeat_upto {T} (x : T) n : repeat x (Z.to_nat n) = map (fun _ => x) (upto n).
Proof. now rewrite map_const, upto_length. Qed.

(** * The symbol stream of the counting loops *)

Lemma bitValue_digit b k : 0 <= k -> bitValue b k = (byte_val b / 2 ^ k) mod 2.
Proof.
  intros Hk. unfold bitValue.
  change 1 with (Z.ones 1). rewrite Z.land_ones by lia.
  now rewrite Z.shiftr_div_pow2 by lia.
Qed.

Lemma bit_symbols b : map (bitValue b) bit_positions = bits_lsb_first b.
Proof.
  unfold bits_lsb_first. change (upto 8) with bit_positions.
  apply map_ext_in. intros k Hk. apply bitValue_digit.
  unfold bit_positions in Hk. simpl in Hk. lia.
Qed.

Lemma bits_lsb_first_range b x : In x (bits_lsb_first b) -> 0 <= x < 2.
Proof.
  unfold bits_lsb_first. rewrite in_map_iff. intros [k [<- _]].
  apply Z.mod_pos_bound. lia.
Qed.

Lemma bits_lsb_first_length b : length (bits_lsb_first b) = 8%nat.
Proof. reflexivity. Qed.

Lemma symbols_range bits buffer x :
  In x (symbols bits buffer) -> 0 <= x < alphabet_size bits.
Proof.
  destruct bits; simpl.
  - rewrite in_flat_map. intros [b [_ Hb]]. now apply bits_lsb_first_range in Hb.
  - rewrite in_map_iff. intros [b [<- _]]. apply byte_val_range.
Qed.

Lemma symbols_size bits buffer : size (symbols bits buffer) = total_samples bits buffer.
Proof.
  unfold symbols, total_samples. destruct bits.
  - induction buffer as [|b buffer IH]; [reflexivity|].
    change (flat_map bits_lsb_first (b :: buffer))
      with (bits_lsb_first b ++ flat_map bits_lsb_first buffer).
    rewrite size_app, IH. unfold size. rewrite bits_lsb_first_length.
    change (length (b :: buffer)) with (S (length buffer)). lia.
  - apply size_map.
Qed.

Lemma fold_left_map_in {A B C} (f : A -> B -> A) (g : C -> B) l : forall a,
  fold_left f (map g l) a = fold_left (fun a x => f a (g x)) l a.
Proof. induction l as [|x l IH]; intros a; simpl; auto. Qed.

Lemma fold_bits_flat {T} (step : T -> Z -> T) buffer : forall t,
  fold_left (fun t b => fold_left (fun t' bit => step t' (bitValue b bit)) bit_positions t)
    buffer t
  = fold_left step (symbols true buffer) t.
Proof.
  unfold symbols.
  induction buffer as [|b buffer IH]; intros t; [reflexivity|].
  change (flat_map bits_lsb_first (b :: buffer))
    with (bits_lsb_first b ++ flat_map bits_lsb_first buffer).
  rewrite fold_left_app, <- IH, <- bit_symbols, fold_left_map_in. reflexivity.
Qed.

Lemma fold_bytes_map {T} (step : T -> Z -> T) buffer t :
  fold_left (fun t b => step t (byte_val b)) buffer t
  = fold_left step (symbols false buffer) t.
Proof. unfold symbols. now rewrite fold_left_map_in. Qed.

(** * Entropy *)

Lemma to_double_succ c : 0 <= c < 2 ^ 53 -> (to_double c + 1)%float = to_double (c + 1).
Proof.
  intros Hc. change 1%float with (to_double 1). apply to_double_add; lia.
Qed.

Lemma double_table bits buffer :
  total_samples bits buffer <= 2 ^ 53 ->
  fold_left (fun t x => modify t x (fun f => f + 1)%float) (symbols bits buffer)
    (repeat 0%float (Z.to_nat (alphabet_size bits)))
  = map (fun j => to_double (occurrences j (symbols bits buffer)))
      (upto (alphabet_size bits)).
Proof.
  intros Hn. rewrite repeat_upto.
  change 0%float with (to_double ((fun _ => 0) 0)).
  rewrite (count_table to_double (fun f => f + 1)%float (2 ^ 53) to_double_succ).
  - reflexivity.
  - apply symbols_range.
  - intros _. lia.
  - intros j. pose proof (occurrences_le_size j (symbols bits buffer)).
    rewrite symbols_size in H. lia.
Qed.

Lemma fold_left_skip {A B} (h : B -> B) (test : B -> bool) (step : A -> B -> A) l :
  forall a,
  fold_left (fun e f => let f' := h f in if test f' then step e f' else e) l a
  = fold_left step (filter test (map h l)) a.
Proof.
  induction l as [|x l IH]; intros a; [reflexivity|].
  simpl. destruct (test (h x)); simpl; apply IH.
Qed.

Lemma entropy_loop_shannon lm bits buffer :
  entropy_loop lm (to_double (total_samples bits buffer))
    (map (fun j => to_double (occurrences j (symbols bits buffer)))
       (upto (alphabet_size bits)))
  = shannon_entropy lm bits buffer.
Proof.
  unfold entropy_loop, shannon_entropy, float_sum.
  rewrite (fold_left_skip (fun f => f / to_double (total_samples bits buffer))%float
             (fun p => (0 <? p)%float)
             (fun acc p => (acc - p * log2 lm p)%float)).
  rewrite map_map.
  change (map (fun x => (to_double (occurrences x (symbols bits buffer))
                        / to_double (total_samples bits buffer))%float)
            (upto (alphabet_size bits)))
    with (map (probability bits buffer) (alphabet bits)).
  rewrite <- (fold_left_map_in (fun acc t => acc - t)%float
                (fun p => p * log2 lm p)%float).
  exact (fold_sub_from_zero _ 0%float).
Qed.

Lemma total_bits_double buffer :
  8 * size buffer <= 2 ^ 53 ->
  (8 * to_double (size buffer))%float = to_double (total_samples true buffer).
Proof.
  intros H. pose proof (size_nonneg buffer).
  change 8%float with (to_double 8). unfold total_samples.
  apply to_double_mul; lia.
Qed.

Lemma calculate_entropy_fields lm s :
  total_samples (streamOfBitsMode s) (data s) <= 2 ^ 53 ->
  entropy (calculate_entropy lm s) = shannon_entropy lm (streamOfBitsMode s) (data s)
  /\ compression (calculate_entropy lm s)
     = compression_percentage lm (streamOfBitsMode s) (data s).
Proof.
  intros Hn. pose proof (size_nonneg (data s)) as H0.
  unfold calculate_entropy, compression_percentage.
  destruct (streamOfBitsMode s) eqn:Hm.
  - cbn [entropy compression set_entropy set_compression max_entropy].
    assert (E : entropy_loop lm (8 * to_double (size (data s)))
                  (fold_left (count_bits_double) (data s) (repeat 0%float 2))
                = shannon_entropy lm true (data s)).
    { rewrite total_bits_double by (unfold total_samples in Hn; lia).
      rewrite <- entropy_loop_shannon. f_equal.
      unfold count_bits_double.
      rewrite (fold_bits_flat (fun t x => modify t x (fun f => f + 1)%float)).
      apply (double_table true). exact Hn. }
    rewrite E. split; reflexivity.
  - cbn [entropy compression set_entropy set_compression max_entropy].
    assert (E : entropy_loop lm (to_double (size (data s)))
                  (fold_left (count_byte_double) (data s)
                     (repeat 0%float (Z.to_nat BYTE_VAL_COUNT)))
                = shannon_entropy lm false (data s)).
    { rewrite <- entropy_loop_shannon. f_equal.
      unfold count_byte_double.
      rewrite (fold_bytes_map (fun t x => modify t x (fun f => f + 1)%float)).
      apply (double_table false). exact Hn. }
    rewrite E. split; reflexivity.
Qed.

(** * Chi-square *)








(** * Mean *)

Lemma byte_sum_bounds buffer : 0 <= byte_sum buffer <= 255 * size buffer.
Proof.
  induction buffer as [|b buffer IH]; [unfold size; simpl; lia|].
  unfold size in *. simpl byte_sum. simpl length.
  pose proof (byte_val_range b). lia.
Qed.

Lemma accumulate_exact buffer : forall a,
  0 <= a -> a + byte_sum buffer < 2 ^ 53 ->
  fold_left (fun acc b => (acc + to_double (byte_val b))%float) buffer (to_double a)
  = to_double (a + byte_sum buffer).
Proof.
  induction buffer as [|b buffer IH]; intros a Ha Hb.
  - simpl. now rewrite Z.add_0_r.
  - simpl fold_left. simpl byte_sum in *.
    pose proof (byte_val_range b). pose proof (byte_sum_bounds buffer).
    rewrite to_double_add by lia. rewrite IH by lia. f_equal. lia.
Qed.

Lemma calculate_mean_field s :
  255 * size (data s) < 2 ^ 53 ->
  mean (calculate_mean s) = arithmetic_mean (data s).
Proof.
  intros Hn. unfold calculate_mean, arithmetic_mean. cbn [mean set_mean].
  pose proof (byte_sum_bounds (data s)).
  change 0%float with (to_double 0). rewrite accumulate_exact by lia.
  reflexivity.
Qed.

(** * The fold-case pass *)

Lemma modify_nth_app {A} (f : A -> A) pre x rest :
  modify_nth (length pre) f (pre ++ x :: rest) = pre ++ f x :: rest.
Proof. induction pre as [|p pre IH]; simpl; [reflexivity|now rewrite IH]. Qed.

Lemma write_app pre x rest b :
  write (pre ++ x :: rest) (size pre) b = pre ++ b :: rest.
Proof. unfold write, modify, size. rewrite Nat2Z.id. apply modify_nth_app. Qed.

Lemma fold_step c : isalpha c && isupper c = (65 <=? c) && (c <=? 90).
Proof.
  unfold isalpha, isupper.
  destruct ((65 <=? c) && (c <=? 90)); [reflexivity|apply andb_false_r].
Qed.

Lemma fold_case_loop_S fuel d i :
  fold_case_loop (S fuel) d i
  = if negb (i =? size d) then
      c <- read d i ;;
      if isalpha c && isupper c then
        c' <- read d i ;;
        fold_case_loop fuel (write d i (uchar_of_Z (tolower c'))) (wrap64 (i + 1))
      else fold_case_loop fuel d (wrap64 (i + 1))
    else Done d.
Proof. reflexivity. Qed.

Lemma fold_case_loop_spec rest : forall fuel pre,
  (length rest <= fuel)%nat ->
  size (pre ++ rest) < 2 ^ 64 ->
  fold_case_loop fuel (pre ++ rest) (size pre) = Done (pre ++ map ascii_fold rest).
Proof.
  induction rest as [|b rest IH]; intros fuel pre Hf Hs.
  - assert (E : (size pre =? size (pre ++ [])) = true)
      by (rewrite app_nil_r; apply Z.eqb_refl).
    destruct fuel; simpl; rewrite E; reflexivity.
  - destruct fuel as [|fuel]; [simpl in Hf; lia|].
    assert (E : (size pre =? size (pre ++ b :: rest)) = false).
    { apply Z.eqb_neq. rewrite size_app. unfold size. simpl length. lia. }
    assert (Hw : wrap64 (size pre + 1) = size (pre ++ [b])).
    { rewrite size_app in *. unfold size in *. simpl length in *.
      apply wrap64_small. lia. }
    rewrite fold_case_loop_S, E. cbn [negb].
    rewrite read_app_here. cbn [bind]. rewrite fold_step.
    cbn [map]. unfold ascii_fold at 1.
    destruct ((65 <=? byte_val b) && (byte_val b <=? 90)) eqn:Hu.
    + rewrite write_app.
      unfold tolower, isupper. rewrite Hu.
      set (b' := uchar_of_Z (byte_val b + 32)).
      replace (wrap64 (size pre + 1)) with (size (pre ++ [b'])).
      2:{ rewrite Hw, !size_app. reflexivity. }
      change (pre ++ b' :: rest) with (pre ++ [b'] ++ rest).
      rewrite app_assoc, IH.
      * now rewrite <- app_assoc.
      * simpl in Hf. lia.
      * rewrite <- app_assoc. simpl app.
        rewrite size_app in *. unfold size in *. simpl length in *. lia.
    + rewrite Hw. change (pre ++ b :: rest) with (pre ++ [b] ++ rest).
      rewrite app_assoc, IH.
      * now rewrite <- app_assoc.
      * simpl in Hf. lia.
      * now rewrite <- app_assoc.
Qed.

Lemma fold_case_loop_map d :
  size d < 2 ^ 64 ->
  fold_case_loop (length d) d 0 = Done (map ascii_fold d).
Proof.
  intros Hs. apply (fold_case_loop_spec d (length d) []); [lia|exact Hs].
Qed.

Lemma ascii_fold_idempotent b : ascii_fold (ascii_fold b) = ascii_fold b.
Proof. destruct b; reflexivity. Qed.

Lemma map_ascii_fold_idempotent d :
  map ascii_fold (map ascii_fold d) = map ascii_fold d.
Proof. rewrite map_map. apply map_ext. apply ascii_fold_idempotent. Qed.

(** * The serial-correlation loop *)

Lemma serial_loop_S fuel d i a :
  serial_loop (S fuel) d i a
  = if i <? size d then
      X <- read d (wrap64 (i - 1)) ;;
      Y <- read d i ;;
      serial_loop fuel d (wrap64 (i + 1))
        (mkSums (wrap64 (sumX a + X)) (wrap64 (sumY a + Y))
                (wrap64 (sumXY a + wrap64 (X * Y)))
                (wrap64 (sumX2 a + wrap64 (X * X)))
                (wrap64 (sumY2 a + wrap64 (Y * Y))))
    else Done a.
Proof. reflexivity. Qed.

Lemma serial_loop_spec rest : forall fuel pre x a,
  (length rest <= fuel)%nat ->
  size (pre ++ x :: rest) < 2 ^ 64 ->
  serial_loop fuel (pre ++ x :: rest) (size pre + 1) a
  = Done (pair_sums (byte_val x) rest a).
Proof.
  induction rest as [|y rest IH]; intros fuel pre x a Hf Hs.
  - assert (E : (size pre + 1 <? size (pre ++ [x])) = false).
    { apply Z.ltb_ge. rewrite size_app. unfold size. simpl length. lia. }
    destruct fuel; simpl; rewrite E; reflexivity.
  - destruct fuel as [|fuel]; [simpl in Hf; lia|].
    pose proof (size_nonneg pre) as Hp.
    assert (Hlen : size (pre ++ x :: y :: rest) = size pre + 2 + size rest).
    { rewrite size_app. unfold size. simpl length. lia. }
    pose proof (size_nonneg rest) as Hr.
    assert (E : (size pre + 1 <? size (pre ++ x :: y :: rest)) = true).
    { apply Z.ltb_lt. lia. }
    rewrite serial_loop_S, E.
    replace (wrap64 (size pre + 1 - 1)) with (size pre)
      by (rewrite wrap64_small; lia).
    rewrite read_app_here. cbn [bind].
    replace (size pre + 1) with (size (pre ++ [x])) at 1
      by (rewrite size_app; reflexivity).
    change (pre ++ x :: y :: rest) with (pre ++ [x] ++ y :: rest).
    rewrite app_assoc, read_app_here. cbn [bind].
    replace (wrap64 (size pre + 1 + 1)) with (size (pre ++ [x]) + 1).
    2:{ rewrite size_app. unfold size at 2. simpl length.
        rewrite wrap64_small; lia. }
    rewrite IH.
    + reflexivity.
    + simpl in Hf. lia.
    + now rewrite <- app_assoc.
Qed.

Lemma serial_loop_total d a :
  size d < 2 ^ 64 ->
  serial_loop (length d) d 1 a
  = Done (match d with [] => a | x :: rest => pair_sums (byte_val x) rest a end).
Proof.
  intros Hs. destruct d as [|x rest].
  - reflexivity.
  - apply (serial_loop_spec rest (length (x :: rest)) [] x a); [simpl; lia|exact Hs].
Qed.

(** * The Monte Carlo loop *)

Lemma lor_bound n a b :
  0 <= n -> 0 <= a < 2 ^ n -> 0 <= b < 2 ^ n -> 0 <= Z.lor a b < 2 ^ n.
Proof.
  intros Hn Ha Hb.
  assert (H0 : 0 <= Z.lor a b) by (apply Z.lor_nonneg; lia).
  split; [exact H0|].
  destruct (Z.eq_dec (Z.lor a b) 0) as [E|E].
  - rewrite E. apply Z.pow_pos_nonneg; lia.
  - apply Z.log2_lt_pow2; [lia|].
    rewrite Z.log2_lor by lia.
    destruct (Z.eq_dec a 0) as [->|]; destruct (Z.eq_dec b 0) as [->|];
      try (rewrite Z.lor_0_l in E); try (rewrite Z.lor_0_r in E); try lia.
    + simpl Z.log2. rewrite Z.max_r by apply Z.log2_nonneg.
      apply Z.log2_lt_pow2; lia.
    + simpl Z.log2. rewrite Z.max_l by apply Z.log2_nonneg.
      apply Z.log2_lt_pow2; lia.
    + apply Z.max_lub_lt; apply Z.log2_lt_pow2; lia.
Qed.

Lemma coordinate_range b0 b1 b2 : 0 <= coordinate b0 b1 b2 < 2 ^ 24.
Proof.
  pose proof (byte_val_range b0). pose proof (byte_val_range b1).
  pose proof (byte_val_range b2).
  unfold coordinate. rewrite !Z.shiftl_mul_pow2 by lia.
  apply lor_bound; [lia| |lia]. apply lor_bound; lia.
Qed.

Lemma coordinate_wrapped b0 b1 b2 :
  Z.lor (Z.lor (wrap64 (Z.shiftl (byte_val b0) 16)) (wrap64 (Z.shiftl (byte_val b1) 8)))
    (byte_val b2)
  = coordinate b0 b1 b2.
Proof.
  pose proof (byte_val_range b0). pose proof (byte_val_range b1).
  unfold coordinate. rewrite !wrap64_small; [reflexivity| |];
    rewrite Z.shiftl_mul_pow2 by lia; lia.
Qed.

Lemma distance_wrapped x y :
  0 <= x < 2 ^ 24 -> 0 <= y < 2 ^ 24 ->
  wrap64 (wrap64 (x * x) + wrap64 (y * y)) = x * x + y * y.
Proof.
  intros Hx Hy.
  assert (0 <= x * x < 2 ^ 48) by nia.
  assert (0 <= y * y < 2 ^ 48) by nia.
  rewrite (wrap64_small (x * x)), (wrap64_small (y * y)) by lia.
  apply wrap64_small. lia.
Qed.

Lemma hit_count_cons b0 b1 b2 b3 b4 b5 rest :
  hit_count (b0 :: b1 :: b2 :: b3 :: b4 :: b5 :: rest)
  = (if is_hit (mkGroup b0 b1 b2 b3 b4 b5) then 1 else 0) + hit_count rest.
Proof.
  unfold hit_count, size. simpl groups. simpl filter.
  destruct (is_hit (mkGroup b0 b1 b2 b3 b4 b5)); simpl length; lia.
Qed.

Lemma groups_length buffer : size (groups buffer) = size buffer / 6.
Proof.
  assert (H : forall n buffer, (length buffer < n)%nat ->
                               size (groups buffer) = size buffer / 6).
  { induction n as [|n IH]; intros d Hd; [lia|].
    destruct d as [|b0 [|b1 [|b2 [|b3 [|b4 [|b5 rest]]]]]]; try reflexivity.
    simpl groups. unfold size in *. simpl length in *.
    specialize (IH rest ltac:(lia)).
    replace (Z.of_nat (S (S (S (S (S (S (length rest))))))))
      with (Z.of_nat (length rest) + 1 * 6) by lia.
    rewrite Z.div_add by lia. lia. }
  apply (H (S (length buffer))). lia.
Qed.

Lemma groups_bytes buffer :
  flat_map group_bytes (groups buffer)
  = firstn (6 * (length buffer / 6)) buffer.
Proof.
  assert (H : forall n buffer, (length buffer < n)%nat ->
              flat_map group_bytes (groups buffer)
              = firstn (6 * (length buffer / 6)) buffer).
  { induction n as [|n IH]; intros d Hd; [lia|].
    destruct d as [|b0 [|b1 [|b2 [|b3 [|b4 [|b5 rest]]]]]]; try reflexivity.
    simpl groups. simpl length in *.
    replace (S (S (S (S (S (S (length rest)))))))
      with (length rest + 1 * 6)%nat by lia.
    rewrite Nat.div_add by lia.
    replace (6 * (length rest / 6 + 1))%nat
      with (S (S (S (S (S (S (6 * (length rest / 6)))))))) by lia.
    simpl flat_map. unfold group_bytes at 1. simpl.
    do 6 f_equal. apply IH. lia. }
  apply (H (S (length buffer))). lia.
Qed.

Lemma pi_loop_S fuel d i hits total :
  pi_loop (S fuel) d i hits total
  = if i <? wrap64 (size d - 5) then
      b0 <- read d i ;;
      b1 <- read d (wrap64 (i + 1)) ;;
      b2 <- read d (wrap64 (i + 2)) ;;
      b3 <- read d (wrap64 (i + 3)) ;;
      b4 <- read d (wrap64 (i + 4)) ;;
      b5 <- read d (wrap64 (i + 5)) ;;
      let x := Z.lor (Z.lor (wrap64 (Z.shiftl b0 16)) (wrap64 (Z.shiftl b1 8))) b2 in
      let y := Z.lor (Z.lor (wrap64 (Z.shiftl b3 16)) (wrap64 (Z.shiftl b4 8))) b5 in
      let distanceSquared := wrap64 (wrap64 (x * x) + wrap64 (y * y)) in
      let hits := if distanceSquared <? radiusSquared then wrap64 (hits + 1) else hits in
      pi_loop fuel d (wrap64 (i + 6)) hits (wrap64 (total + 1))
    else Done (hits, total).
Proof. reflexivity. Qed.

Lemma pi_loop_exit fuel d i hits total :
  (i <? wrap64 (size d - 5)) = false -> pi_loop fuel d i hits total = Done (hits, total).
Proof. intros E. destruct fuel; simpl; rewrite E; reflexivity. Qed.

Lemma read_offset pre l k b :
  nth_error l k = Some b ->
  size (pre ++ l) < 2 ^ 64 ->
  read (pre ++ l) (wrap64 (size pre + Z.of_nat k)) = Done (byte_val b).
Proof.
  intros Hk Hs.
  assert (k < length l)%nat by (apply nth_error_Some; congruence).
  rewrite size_app in Hs. unfold size in *.
  rewrite wrap64_small by lia.
  unfold read. replace (Z.to_nat (Z.of_nat (length pre) + Z.of_nat k))
    with (length pre + k)%nat by lia.
  rewrite nth_error_app2 by lia.
  replace (length pre + k - length pre)%nat with k by lia.
  now rewrite Hk.
Qed.

Lemma pi_loop_spec : forall fuel rest pre h t,
  (length rest <= fuel)%nat ->
  6 <= size (pre ++ rest) < 2 ^ 64 ->
  0 <= h -> 0 <= t ->
  h + size rest < 2 ^ 64 -> t + size rest < 2 ^ 64 ->
  pi_loop fuel (pre ++ rest) (size pre) h t
  = Done (h + hit_count rest, t + size (groups rest)).
Proof.
  induction fuel as [|fuel IH]; intros rest pre h t Hf Hs Hh Ht Hhb Htb.
  - destruct rest; [|simpl in Hf; lia].
    rewrite pi_loop_exit.
    + unfold hit_count, size. simpl. now rewrite !Z.add_0_r.
    + rewrite app_nil_r in *. rewrite wrap64_small by lia. apply Z.ltb_ge. lia.
  - assert (Hlen : size (pre ++ rest) = size pre + size rest) by apply size_app.
    pose proof (size_nonneg pre) as Hp.
    destruct rest as [|b0 [|b1 [|b2 [|b3 [|b4 [|b5 rest]]]]]];
      try (rewrite pi_loop_exit;
           [unfold hit_count, size; simpl; now rewrite !Z.add_0_r
           |rewrite wrap64_small by lia; apply Z.ltb_ge;
            unfold size in *; simpl length in *; lia]).
    assert (Hr : size (b0 :: b1 :: b2 :: b3 :: b4 :: b5 :: rest) = size rest + 6).
    { unfold size. simpl length. lia. }
    pose proof (size_nonneg rest) as Hr0.
    rewrite pi_loop_S.
    replace (size pre <? wrap64 (size (pre ++ b0 :: b1 :: b2 :: b3 :: b4 :: b5 :: rest) - 5))
      with true by (symmetry; rewrite wrap64_small by lia; apply Z.ltb_lt; lia).
    rewrite read_app_here. cbn [bind].
    rewrite (read_offset pre _ 1 b1), (read_offset pre _ 2 b2),
      (read_offset pre _ 3 b3), (read_offset pre _ 4 b4),
      (read_offset pre _ 5 b5) by first [reflexivity | apply (proj2 Hs)].
    cbn [bind]. cbv zeta.
    rewrite !coordinate_wrapped.
    rewrite distance_wrapped by apply coordinate_range.
    change radiusSquared with (2 ^ 48).
    change (coordinate b0 b1 b2 * coordinate b0 b1 b2
            + coordinate b3 b4 b5 * coordinate b3 b4 b5 <? 2 ^ 48)
      with (is_hit (mkGroup b0 b1 b2 b3 b4 b5)).
    rewrite hit_count_cons.
    assert (Hw : wrap64 (size pre + 6) = size (pre ++ [b0; b1; b2; b3; b4; b5])).
    { rewrite size_app. change (size [b0; b1; b2; b3; b4; b5]) with 6.
      apply wrap64_small. lia. }
    rewrite Hw.
    change (pre ++ b0 :: b1 :: b2 :: b3 :: b4 :: b5 :: rest)
      with (pre ++ [b0; b1; b2; b3; b4; b5] ++ rest).
    rewrite app_assoc.
    rewrite (wrap64_small (t + 1)) by lia.
    assert (Hc : hit_count rest <= size rest).
    { unfold hit_count, size. pose proof (filter_length_le is_hit (groups rest)).
      pose proof (groups_length rest) as Hg. unfold size in Hg.
      assert (Z.of_nat (length rest) / 6 <= Z.of_nat (length rest))
        by (apply Z.div_le_upper_bound; lia).
      lia. }
    assert (Hc0 : 0 <= hit_count rest) by (unfold hit_count; apply size_nonneg).
    assert (Hg : size (groups (b0 :: b1 :: b2 :: b3 :: b4 :: b5 :: rest))
                 = size (groups rest) + 1).
    { simpl groups. unfold size. simpl length. lia. }
    rewrite Hg.
    destruct (is_hit (mkGroup b0 b1 b2 b3 b4 b5)).
    + rewrite (wrap64_small (h + 1)) by lia.
      rewrite IH.
      * do 2 f_equal; lia.
      * simpl in Hf. lia.
      * now rewrite <- app_assoc.
      * lia.
      * lia.
      * lia.
      * lia.
    + rewrite IH.
      * do 2 f_equal; lia.
      * simpl in Hf. lia.
      * now rewrite <- app_assoc.
      * lia.
      * lia.
      * lia.
      * lia.
Qed.

Lemma pi_loop_done d :
  6 <= size d < 2 ^ 64 ->
  pi_loop (S (length d)) d 0 0 0 = Done (hit_count d, size d / 6).
Proof.
  intros Hs. pose proof (pi_loop_spec (S (length d)) d [] 0 0) as H.
  simpl app in H. change (size []) with 0 in H.
  rewrite H; try lia.
  now rewrite groups_length.
Qed.

(** With 1 to 4 bytes the bound [data.size() - 5] wraps around to a huge
    value, the body is entered at [i = 0], and [data[size]] is read. *)
Lemma pi_loop_short d fuel h t :
  1 <= size d <= 4 -> pi_loop (S fuel) d 0 h t = OutOfRange (size d).
Proof.
  intros Hs.
  destruct d as [|b0 [|b1 [|b2 [|b3 [|b4 rest]]]]];
    try (unfold size in Hs; simpl length in Hs; lia); reflexivity.
Qed.

(** With exactly 5 bytes the bound is 0 and the body is never entered. *)
Lemma pi_loop_five d fuel h t :
  size d = 5 -> pi_loop fuel d 0 h t = Done (h, t).
Proof.
  intros Hs. apply pi_loop_exit. rewrite Hs. reflexivity.
Qed.

(** * calculate as a whole *)

Lemma calculate_measure lm s :
  size (data s) < 2 ^ 64 -> calculate lm s = measure lm (prepared s).
Proof.
  intros Hs. unfold calculate, prepared.
  destruct (foldCaseMode s); [|reflexivity].
  rewrite fold_case_loop_map by exact Hs. reflexivity.
Qed.

Lemma data_prepared s : data (prepared s) = analysed s.
Proof. unfold prepared, analysed. destruct (foldCaseMode s); reflexivity. Qed.

Lemma mode_prepared s : streamOfBitsMode (prepared s) = streamOfBitsMode s.
Proof. unfold prepared. destruct (foldCaseMode s); reflexivity. Qed.

Lemma size_analysed s : size (analysed s) = size (data s).
Proof. unfold analysed. destruct (foldCaseMode s); [apply size_map|reflexivity]. Qed.

(** The measurements read the buffer and the flags only: every result field
    is overwritten. *)
Lemma measure_depends lm s t :
  data s = data t ->
  streamOfBitsMode s = streamOfBitsMode t ->
  printTableMode s = printTableMode t ->
  foldCaseMode s = foldCaseMode t ->
  terseMode s = terseMode t ->
  printResultMode s = printResultMode t ->
  measure lm s = measure lm t.
Proof.
  destruct s, t. cbn [data streamOfBitsMode printTableMode foldCaseMode terseMode
                        printResultMode].
  intros -> -> -> -> -> ->.
  unfold measure, calculate_entropy, calculate_chisquare, calculate_mean,
    calculate_pi, calculate_serial_correlation.
  cbn [data streamOfBitsMode].
  destruct streamOfBitsMode1;
    cbn [data set_entropy set_compression set_chisquare set_p_value set_mean
         entropy compression chisquare p_value mean pi_estimate serial_correlation
         streamOfBitsMode printTableMode foldCaseMode terseMode printResultMode];
    (destruct (pi_loop _ _ _ _ _) as [[hits total]| |]; [|reflexivity|reflexivity]);
    cbn [bind data set_pi_estimate];
    (destruct (serial_loop _ _ _ _) as [a| |]; reflexivity).
Qed.

Lemma data_calculate_entropy lm s : data (calculate_entropy lm s) = data s.
Proof. unfold calculate_entropy. destruct (streamOfBitsMode s); reflexivity. Qed.

Lemma mode_calculate_entropy lm s :
  streamOfBitsMode (calculate_entropy lm s) = streamOfBitsMode s.
Proof. unfold calculate_entropy. destruct (streamOfBitsMode s) eqn:E; cbn; exact E. Qed.

Lemma data_calculate_chisquare lm s : data (calculate_chisquare lm s) = data s.
Proof. unfold calculate_chisquare. destruct (streamOfBitsMode s); reflexivity. Qed.

Lemma entropy_calculate_chisquare lm s :
  entropy (calculate_chisquare lm s) = entropy s
  /\ compression (calculate_chisquare lm s) = compression s.
Proof. unfold calculate_chisquare. destruct (streamOfBitsMode s); split; reflexivity. Qed.

Lemma groups_five d : size d = 5 -> groups d = [].
Proof.
  intros Hs.
  destruct d as [|b0 [|b1 [|b2 [|b3 [|b4 [|b5 rest]]]]]]; try reflexivity.
  unfold size in Hs. simpl length in Hs. lia.
Qed.

Lemma calculate_pi_done s :
  5 <= size (data s) < 2 ^ 64 ->
  calculate_pi s
  = Done (set_pi_estimate
            (4 * to_double (hit_count (data s)) / to_double (size (data s) / 6))%float s).
Proof.
  intros Hs. unfold calculate_pi.
  destruct (Z.eq_dec (size (data s)) 5) as [E|E].
  - rewrite pi_loop_five by exact E. cbn [bind].
    unfold hit_count. rewrite (groups_five _ E), E. reflexivity.
  - rewrite pi_loop_done by lia. reflexivity.
Qed.

Lemma calculate_pi_short s :
  size (data s) <= 4 -> calculate_pi s = OutOfRange (size (data s)).
Proof.
  intros Hs. unfold calculate_pi.
  destruct (data s) as [|b d] eqn:E.
  - reflexivity.
  - rewrite <- E in *. rewrite pi_loop_short; [reflexivity|].
    split; [|exact Hs]. rewrite E. unfold size. simpl length. lia.
Qed.

Lemma calculate_serial_correlation_done s :
  size (data s) < 2 ^ 64 -> completed (calculate_serial_correlation s) = true.
Proof.
  intros Hs. unfold calculate_serial_correlation.
  rewrite serial_loop_total by exact Hs. reflexivity.
Qed.

Lemma measure_shape lm s s' :
  measure lm s = Done s' ->
  s' = set_serial_correlation (serial_correlation s')
         (set_pi_estimate (pi_estimate s')
            (calculate_mean (calculate_chisquare lm (calculate_entropy lm s)))).
Proof.
  unfold measure, calculate_pi, calculate_serial_correlation.
  destruct (pi_loop _ _ _ _ _) as [[hits total]| |]; cbn [bind]; try discriminate.
  destruct (serial_loop _ _ _ _) as [a| |]; cbn [bind]; try discriminate.
  intros [= <-]. reflexivity.
Qed.

Lemma measure_total lm s :
  5 <= size (data s) < 2 ^ 64 -> completed (measure lm s) = true.
Proof.
  intros Hs. unfold measure.
  rewrite calculate_pi_done
    by (unfold calculate_mean; cbn [data set_mean];
        now rewrite data_calculate_chisquare, data_calculate_entropy).
  cbn [bind]. apply calculate_serial_correlation_done.
  cbn [data set_pi_estimate]. unfold calculate_mean. cbn [data set_mean].
  rewrite data_calculate_chisquare, data_calculate_entropy. lia.
Qed.

Lemma measure_short lm s :
  size (data s) <= 4 -> measure lm s = OutOfRange (size (data s)).
Proof.
  intros Hs. unfold measure.
  assert (E : data (calculate_mean (calculate_chisquare lm (calculate_entropy lm s)))
              = data s).
  { unfold calculate_mean. cbn [data set_mean].
    now rewrite data_calculate_chisquare, data_calculate_entropy. }
  rewrite calculate_pi_short by (rewrite E; exact Hs).
  rewrite E. reflexivity.
Qed.

Lemma completed_done {A} (o : outcome A) : completed o = true -> exists a, o = Done a.
Proof. destruct o; [eauto|discriminate|discriminate]. Qed.

Lemma calculate_total lm s :
  5 <= size (data s) < 2 ^ 64 -> exists s', calculate lm s = Done s'.
Proof.
  intros Hs. apply completed_done.
  rewrite calculate_measure by lia. apply measure_total.
  now rewrite data_prepared, size_analysed.
Qed.

Lemma calculate_short lm s :
  size (data s) <= 4 -> calculate lm s = OutOfRange (size (data s)).
Proof.
  intros Hs. rewrite calculate_measure by lia.
  rewrite <- size_analysed, <- data_prepared. apply measure_short.
  rewrite data_prepared, size_analysed. exact Hs.
Qed.

(** * Serial correlation of a constant buffer *)

Lemma pair_sums_repeat b k : forall a,
  0 <= sumX a -> 0 <= sumY a -> 0 <= sumXY a -> 0 <= sumX2 a -> 0 <= sumY2 a ->
  sumX a + Z.of_nat k * byte_val b < 2 ^ 64 ->
  sumY a + Z.of_nat k * byte_val b < 2 ^ 64 ->
  sumXY a + Z.of_nat k * (byte_val b * byte_val b) < 2 ^ 64 ->
  sumX2 a + Z.of_nat k * (byte_val b * byte_val b) < 2 ^ 64 ->
  sumY2 a + Z.of_nat k * (byte_val b * byte_val b) < 2 ^ 64 ->
  pair_sums (byte_val b) (repeat b k) a
  = mkSums (sumX a + Z.of_nat k * byte_val b) (sumY a + Z.of_nat k * byte_val b)
      (sumXY a + Z.of_nat k * (byte_val b * byte_val b))
      (sumX2 a + Z.of_nat k * (byte_val b * byte_val b))
      (sumY2 a + Z.of_nat k * (byte_val b * byte_val b)).
Proof.
  pose proof (byte_val_range b) as Hb. set (V := byte_val b) in *.
  induction k as [|k IH]; intros a H1 H2 H3 H4 H5 B1 B2 B3 B4 B5.
  - destruct a. cbn [repeat pair_sums sumX sumY sumXY sumX2 sumY2].
    f_equal; lia.
  - cbn [repeat pair_sums]. fold V.
    assert (0 <= V * V <= 255 * 255) by nia.
    assert (0 <= Z.of_nat k * V) by nia.
    assert (0 <= Z.of_nat k * (V * V)) by nia.
    rewrite Nat2Z.inj_succ in *.
    rewrite (wrap64_small (V * V)) by lia.
    rewrite !wrap64_small by lia.
    rewrite IH; cbn [sumX sumY sumXY sumX2 sumY2]; try lia.
    f_equal; lia.
Qed.

Lemma constant_sums b n :
  Z.of_nat n * (byte_val b * byte_val b) < 2 ^ 64 ->
  pair_sums (byte_val b) (repeat b n) (mkSums 0 0 0 0 0)
  = mkSums (Z.of_nat n * byte_val b) (Z.of_nat n * byte_val b)
      (Z.of_nat n * (byte_val b * byte_val b))
      (Z.of_nat n * (byte_val b * byte_val b))
      (Z.of_nat n * (byte_val b * byte_val b)).
Proof.
  intros H. pose proof (byte_val_range b) as Hb.
  assert (Z.of_nat n * byte_val b < 2 ^ 64).
  { destruct (Z.eq_dec (byte_val b) 0) as [E|E]; [rewrite E; lia|].
    assert (Z.of_nat n * byte_val b <= Z.of_nat n * (byte_val b * byte_val b)); [|lia].
    apply Z.mul_le_mono_nonneg_l; [lia|]. nia. }
  rewrite pair_sums_repeat; cbn [sumX sumY sumXY sumX2 sumY2]; try lia.
  reflexivity.
Qed.

Lemma nan_quotient : (0 / PrimFloat.sqrt (0 * 0))%float = nan.
Proof. reflexivity. Qed.

(** The stored coefficient of a buffer made of [n + 1] copies of one byte. *)
Lemma serial_correlation_constant s b n :
  data s = repeat b (S n) ->
  Z.of_nat n < 2 ^ 53 ->
  Z.of_nat n * byte_val b < 2 ^ 32 ->
  exists s', calculate_serial_correlation s = Done s'
             /\ serial_correlation s' = nan
             /\ data s' = data s.
Proof.
  intros Hd Hn Hb. pose proof (byte_val_range b) as Hv.
  set (V := byte_val b) in *. set (N := Z.of_nat n) in *.
  assert (HN : 0 <= N) by (subst N; lia).
  assert (HNV : 0 <= N * V) by nia.
  assert (HNVV : 0 <= N * (V * V) < 2 ^ 40) by nia.
  unfold calculate_serial_correlation.
  assert (Hsz : size (data s) = N + 1).
  { rewrite Hd. unfold size. rewrite repeat_length. subst N. lia. }
  rewrite serial_loop_total by lia.
  assert (Hsum : match data s with
                 | [] => mkSums 0 0 0 0 0
                 | x :: rest => pair_sums (byte_val x) rest (mkSums 0 0 0 0 0)
                 end
                 = mkSums (N * V) (N * V) (N * (V * V)) (N * (V * V)) (N * (V * V))).
  { rewrite Hd. cbn [repeat]. apply constant_sums. fold V. fold N. lia. }
  rewrite Hsum.
  cbn [bind sumX sumY sumXY sumX2 sumY2].
  eexists. split; [reflexivity|]. cbn [serial_correlation set_serial_correlation data].
  split; [|reflexivity].
  rewrite Hsz. replace (N + 1 - 1) with N by lia.
  rewrite (wrap64_small N) by lia.
  replace (N * V * (N * V)) with (N * (N * (V * V))) by ring.
  rewrite (wrap64_small (N * (N * (V * V)))) by nia.
  rewrite product_minus_product by lia.
  apply nan_quotient.
Qed.

(** * What a completed run leaves in the object *)

Lemma flags_prepared s :
  streamOfBitsMode (prepared s) = streamOfBitsMode s
  /\ printTableMode (prepared s) = printTableMode s
  /\ foldCaseMode (prepared s) = foldCaseMode s
  /\ terseMode (prepared s) = terseMode s
  /\ printResultMode (prepared s) = printResultMode s.
Proof. unfold prepared. destruct (foldCaseMode s) eqn:E; cbn; rewrite ?E; tauto. Qed.

Lemma measure_frame lm s s' :
  measure lm s = Done s' ->
  data s' = data s
  /\ streamOfBitsMode s' = streamOfBitsMode s
  /\ printTableMode s' = printTableMode s
  /\ foldCaseMode s' = foldCaseMode s
  /\ terseMode s' = terseMode s
  /\ printResultMode s' = printResultMode s.
Proof.
  intros H. apply measure_shape in H. rewrite H. clear H.
  unfold calculate_mean, calculate_chisquare. rewrite mode_calculate_entropy.
  unfold calculate_entropy.
  destruct (streamOfBitsMode s) eqn:E;
    cbn [data streamOfBitsMode printTableMode foldCaseMode terseMode printResultMode
         set_serial_correlation set_pi_estimate set_mean set_p_value set_chisquare
         set_compression set_entropy];
    rewrite ?E; tauto.
Qed.

Lemma measure_fields lm s s' :
  measure lm s = Done s' ->
  entropy s' = entropy (calculate_entropy lm s)
  /\ compression s' = compression (calculate_entropy lm s)
  /\ chisquare s' = chisquare (calculate_chisquare lm (calculate_entropy lm s))
  /\ p_value s' = p_value (calculate_chisquare lm (calculate_entropy lm s))
  /\ mean s' = mean (calculate_mean (calculate_chisquare lm (calculate_entropy lm s))).
Proof.
  intros H. apply measure_shape in H. rewrite H. clear H.
  cbn [entropy compression chisquare p_value mean set_serial_correlation
       set_pi_estimate].
  unfold calculate_mean at 1 2 3 4.
  cbn [entropy compression chisquare p_value set_mean].
  destruct (entropy_calculate_chisquare lm (calculate_entropy lm s)) as [-> ->].
  tauto.
Qed.

Lemma measure_pi lm s s' :
  5 <= size (data s) < 2 ^ 64 ->
  measure lm s = Done s' ->
  pi_estimate s'
  = (4 * to_double (hit_count (data s)) / to_double (size (data s) / 6))%float.
Proof.
  intros Hs. unfold measure.
  assert (E : data (calculate_mean (calculate_chisquare lm (calculate_entropy lm s)))
              = data s).
  { unfold calculate_mean. cbn [data set_mean].
    now rewrite data_calculate_chisquare, data_calculate_entropy. }
  rewrite calculate_pi_done by (rewrite E; exact Hs). rewrite E. cbn [bind].
  unfold calculate_serial_correlation.
  destruct (serial_loop _ _ _ _) as [a| |]; cbn [bind]; try discriminate.
  intros [= <-]. reflexivity.
Qed.

Lemma calculate_completes_iff lm s :
  size (data s) < 2 ^ 64 ->
  completed (calculate lm s) = (5 <=? size (data s)).
Proof.
  intros Hs. destruct (Z.leb_spec 5 (size (data s))) as [H|H].
  - destruct (calculate_total lm s) as [s' ->]; [lia|reflexivity].
  - rewrite calculate_short by lia. reflexivity.
Qed.

Lemma calculate_data lm s s' :
  size (data s) < 2 ^ 64 -> calculate lm s = Done s' -> data s' = analysed s.
Proof.
  intros Hs H. rewrite calculate_measure in H by exact Hs.
  apply measure_frame in H. destruct H as [-> _]. apply data_prepared.
Qed.

Lemma calculate_five lm s :
  size (data s) = 5 ->
  exists s', calculate lm s = Done s' /\ pi_estimate s' = nan.
Proof.
  intros Hs. destruct (calculate_total lm s) as [s' H]; [lia|].
  exists s'. split; [exact H|].
  rewrite calculate_measure in H by lia.
  rewrite (measure_pi lm (prepared s) s') by
    (try exact H; rewrite data_prepared, size_analysed; lia).
  rewrite data_prepared, size_analysed, Hs.
  unfold hit_count. rewrite groups_five by (rewrite size_analysed; exact Hs).
  reflexivity.
Qed.

Lemma analysed_constant s b n :
  data s = repeat b n ->
  analysed s = repeat (if foldCaseMode s then ascii_fold b else b) n.
Proof.
  intros Hd. unfold analysed. rewrite Hd.
  destruct (foldCaseMode s); [|reflexivity].
  apply map_repeat.
Qed.

Lemma calculate_constant lm s b n :
  data s = repeat b (S n) ->
  4 <= Z.of_nat n < 2 ^ 53 ->
  Z.of_nat n * byte_val (if foldCaseMode s then ascii_fold b else b) < 2 ^ 32 ->
  exists s', calculate lm s = Done s'
             /\ serial_correlation s' = nan
             /\ print_result_serial s' = SerialUndefined.
Proof.
  intros Hd Hn Hb.
  assert (Hsz : size (data s) = Z.of_nat n + 1).
  { rewrite Hd. unfold size. rewrite repeat_length. lia. }
  assert (Hrun : calculate lm s = measure lm (prepared s))
    by (apply calculate_measure; lia).
  rewrite Hrun. unfold measure.
  set (s3 := calculate_mean (calculate_chisquare lm (calculate_entropy lm (prepared s)))).
  assert (E : data s3 = analysed s).
  { unfold s3, calculate_mean. cbn [data set_mean].
    now rewrite data_calculate_chisquare, data_calculate_entropy, data_prepared. }
  rewrite calculate_pi_done by (rewrite E, size_analysed; lia). cbn [bind].
  set (s4 := set_pi_estimate _ s3).
  destruct (serial_correlation_constant s4
              (if foldCaseMode s then ascii_fold b else b) n) as [s' [H1 [H2 _]]].
  - unfold s4. cbn [data set_pi_estimate]. rewrite E. now apply analysed_constant.
  - lia.
  - exact Hb.
  - exists s'. split; [exact H1|]. split; [exact H2|].
    unfold print_result_serial. rewrite H2. reflexivity.
Qed.

Lemma nan_not_zero : nan <> 0%float.
Proof.
  intros H. assert (E : is_nan nan = is_nan 0) by now rewrite H. discriminate E.
Qed.

Lemma calculate_twice_same lm s s1 :
  size (data s) < 2 ^ 64 -> calculate lm s = Done s1 -> calculate lm s1 = Done s1.
Proof.
  intros Hs H. rewrite calculate_measure in H by exact Hs.
  destruct (measure_frame lm _ _ H) as [Hd [Hb [Ht [Hf [Hte Hr]]]]].
  destruct (flags_prepared s) as [Fb [Ft [Ff [Fte Fr]]]].
  destruct (flags_prepared s1) as [Gb [Gt [Gf [Gte Gr]]]].
  rewrite data_prepared in Hd.
  rewrite calculate_measure by (rewrite Hd, size_analysed; exact Hs).
  rewrite <- H. apply measure_depends; try congruence.
  rewrite !data_prepared. unfold analysed at 1.
  replace (foldCaseMode s1) with (foldCaseMode s) by congruence.
  rewrite Hd. unfold analysed.
  destruct (foldCaseMode s); [apply map_ascii_fold_idempotent|reflexivity].
Qed.

(** * The claims *)

(** C1 - entropy and compression.  Whenever the sample count stays within
    the exact range of a [double] counter (at most 2^53 samples), the
    entropy that [calculate()] computes is [- sum p_i log2 p_i] over exactly
    the symbols with [p_i > 0], where [p_i] is the number of occurrences of
    symbol [i] divided by the total number of symbols: the bits of every
    byte, least significant first, over the alphabet 0..1 in bit mode
    (8 x length samples), the bytes over the alphabet 0..255 in byte mode
    (length samples).  The compression percentage is
    [100 * (1 - entropy / max_entropy)] with [max_entropy] 1.0 or 8.0.  The
    values are those stored by the entropy step, they are the ones a
    completed call returns, and the call completes for every buffer of at
    least 5 bytes. *)
Theorem calculate_entropy_is_shannon (lm : libm) (s : Ent) :
  total_samples (streamOfBitsMode s) (data s) <= 2 ^ 53 ->
  (entropy (calculate_entropy lm (prepared s))
   = shannon_entropy lm (streamOfBitsMode s) (analysed s)
   /\ compression (calculate_entropy lm (prepared s))
      = compression_percentage lm (streamOfBitsMode s) (analysed s))
  /\ (forall s', calculate lm s = Done s' ->
        get_entropy s' = shannon_entropy lm (streamOfBitsMode s) (analysed s)
        /\ get_compression s'
           = compression_percentage lm (streamOfBitsMode s) (analysed s))
  /\ (5 <= size (data s) -> exists s', calculate lm s = Done s').
Proof.
  intros Hn. pose proof (size_nonneg (data s)) as H0.
  assert (Hsz : size (data s) < 2 ^ 64)
    by (unfold total_samples in Hn; destruct (streamOfBitsMode s); lia).
  assert (Hp : entropy (calculate_entropy lm (prepared s))
               = shannon_entropy lm (streamOfBitsMode s) (analysed s)
               /\ compression (calculate_entropy lm (prepared s))
                  = compression_percentage lm (streamOfBitsMode s) (analysed s)).
  { rewrite <- mode_prepared, <- data_prepared.
    apply calculate_entropy_fields. rewrite mode_prepared, data_prepared.
    unfold total_samples in *. rewrite size_analysed. exact Hn. }
  split; [exact Hp|]. split.
  - intros s' H. rewrite calculate_measure in H by lia.
    apply measure_fields in H. destruct H as [He [Hc _]].
    unfold get_entropy, get_compression. rewrite He, Hc. exact Hp.
  - intros H5. apply calculate_total. lia.
Qed.

Lemma calculate_entropy_is_shannon_witness :
  total_samples (streamOfBitsMode folded_bits_input) (data folded_bits_input) <= 2 ^ 53
  /\ forall lm,
       (forall s', calculate lm folded_bits_input = Done s' ->
          get_entropy s' = shannon_entropy lm true (map ascii_fold text_AbCdEf))
       /\ exists s', calculate lm folded_bits_input = Done s'.
Proof.
  assert (H : total_samples (streamOfBitsMode folded_bits_input)
                (data folded_bits_input) <= 2 ^ 53) by (vm_compute; discriminate).
  split; [exact H|]. intros lm.
  destruct (calculate_entropy_is_shannon lm folded_bits_input H) as [_ [Hd Ht]].
  split.
  - intros s' Hs. exact (proj1 (Hd s' Hs)).
  - apply Ht. vm_compute. discriminate.
Defined.



(** C3 - Monte Carlo pi.  For every buffer of [N >= 6] bytes the loop of
    [calculate_pi] processes exactly [N / 6] groups: the consecutive,
    non-overlapping 6-byte groups that cover the first [6 * (N / 6)] bytes.
    A group has [x = byte0 << 16 | byte1 << 8 | byte2] and
    [y = byte3 << 16 | byte4 << 8 | byte5] and is a hit exactly when
    [x^2 + y^2 < 2^48]; [calculate()] completes with
    [pi_estimate = 4 * hits / (N / 6)]. *)
Theorem calculate_pi_counts_groups (lm : libm) (s : Ent) :
  6 <= size (data s) < 2 ^ 64 ->
  pi_loop (S (length (analysed s))) (analysed s) 0 0 0
  = Done (hit_count (analysed s), size (analysed s) / 6)
  /\ size (groups (analysed s)) = size (analysed s) / 6
  /\ flat_map group_bytes (groups (analysed s))
     = firstn (6 * (length (analysed s) / 6)) (analysed s)
  /\ hit_count (analysed s)
     = size (filter (fun g => group_x g * group_x g + group_y g * group_y g <? 2 ^ 48)
               (groups (analysed s)))
  /\ exists s', calculate lm s = Done s'
                /\ get_pi_estimate s'
                   = (4 * to_double (hit_count (analysed s))
                      / to_double (size (analysed s) / 6))%float.
Proof.
  intros Hs.
  assert (Ha : 6 <= size (analysed s) < 2 ^ 64) by (rewrite size_analysed; exact Hs).
  split; [apply pi_loop_done; exact Ha|].
  split; [apply groups_length|].
  split; [apply groups_bytes|].
  split; [reflexivity|].
  destruct (calculate_total lm s) as [s' H]; [lia|].
  exists s'. split; [exact H|].
  rewrite calculate_measure in H by lia.
  unfold get_pi_estimate.
  rewrite (measure_pi lm (prepared s) s');
    rewrite ?data_prepared; try exact H; try reflexivity. lia.
Qed.

Lemma calculate_pi_counts_groups_witness :
  6 <= size (data thirteen_bytes_input) < 2 ^ 64
  /\ size (groups (analysed thirteen_bytes_input)) = 2
  /\ hit_count (analysed thirteen_bytes_input) = 1
  /\ forall lm, exists s',
       calculate lm thirteen_bytes_input = Done s'
       /\ get_pi_estimate s' = (4 * to_double 1 / to_double 2)%float.
Proof.
  assert (H : 6 <= size (data thirteen_bytes_input) < 2 ^ 64)
    by (split; [vm_compute; discriminate|reflexivity]).
  split; [exact H|]. split; [reflexivity|]. split; [reflexivity|].
  intros lm.
  destruct (calculate_pi_counts_groups lm thirteen_bytes_input H)
    as [_ [_ [_ [_ [s' [H1 H2]]]]]].
  exists s'. split; [exact H1|exact H2].
Defined.

(** C4 - the empty buffer.  [calculate()] has no emptiness check and no
    defined error: on the empty buffer the entropy, chi-square and mean
    steps run as on any buffer and leave entropy 0.0, compression 100,
    chi-square NaN and mean NaN in the object before [calculate_pi] is
    entered. *)
Theorem empty_buffer_is_measured (lm : libm) (s : Ent) :
  data s = [] ->
  calculate lm s
  = (s4 <- calculate_pi
             (calculate_mean (calculate_chisquare lm (calculate_entropy lm (prepared s)))) ;;
     calculate_serial_correlation s4)
  /\ entropy (calculate_mean (calculate_chisquare lm (calculate_entropy lm (prepared s))))
     = 0%float
  /\ compression (calculate_mean (calculate_chisquare lm (calculate_entropy lm (prepared s))))
     = 100%float
  /\ chisquare (calculate_mean (calculate_chisquare lm (calculate_entropy lm (prepared s))))
     = nan
  /\ mean (calculate_mean (calculate_chisquare lm (calculate_entropy lm (prepared s))))
     = nan.
Proof.
  intros Hd. split.
  - rewrite calculate_measure by (rewrite Hd; reflexivity). reflexivity.
  - destruct s as [d e c x p m q r bits tbl fold terse res]. cbn [data] in Hd. subst d.
    destruct bits, fold; repeat split; reflexivity.
Qed.

Lemma empty_buffer_is_measured_witness :
  data empty_input = []
  /\ forall lm,
       mean (calculate_mean (calculate_chisquare lm
               (calculate_entropy lm (prepared empty_input)))) = nan.
Proof.
  split; [reflexivity|]. intros lm.
  exact (proj2 (proj2 (proj2 (proj2
           (empty_buffer_is_measured lm empty_input eq_refl))))).
Defined.

(** C4, as stated, fails on the empty buffer: the mean and chi-square steps
    have stored NaN when [calculate_pi] is reached, and the call then ends
    in an out-of-range read of [data[0]], not in a defined error. *)
Lemma empty_buffer_not_rejected :
  data empty_input = []
  /\ forall lm,
       mean (calculate_mean (calculate_chisquare lm
               (calculate_entropy lm (prepared empty_input)))) = nan
       /\ chisquare (calculate_mean (calculate_chisquare lm
               (calculate_entropy lm (prepared empty_input)))) = nan
       /\ calculate_pi (calculate_mean (calculate_chisquare lm
               (calculate_entropy lm (prepared empty_input)))) = OutOfRange 0
       /\ calculate lm empty_input = OutOfRange 0.
Proof.
  split; [reflexivity|]. intros lm.
  split; [reflexivity|]. split; [reflexivity|]. split; [reflexivity|].
  apply (calculate_short lm empty_input). vm_compute. discriminate.
Qed.

(** C5 - too few bytes for a group.  For every buffer of exactly 5 bytes
    (no complete group, loop bound [5 - 5 = 0]) [calculate()] reports no
    condition: it completes and stores [4.0 * 0 / 0 = NaN] as the pi
    estimate. *)
Theorem five_bytes_give_silent_nan (lm : libm) (s : Ent) :
  size (data s) = 5 ->
  groups (analysed s) = []
  /\ exists s', calculate lm s = Done s' /\ get_pi_estimate s' = nan.
Proof.
  intros Hs. split.
  - apply groups_five. now rewrite size_analysed.
  - now apply calculate_five.
Qed.

Lemma five_bytes_give_silent_nan_witness :
  size (data five_bytes_input) = 5
  /\ forall lm, exists s',
       calculate lm five_bytes_input = Done s' /\ get_pi_estimate s' = nan.
Proof.
  split; [reflexivity|]. intros lm.
  exact (proj2 (five_bytes_give_silent_nan lm five_bytes_input eq_refl)).
Defined.

(** C5, as stated, fails on a 5-byte buffer: the call completes normally
    with the NaN of 0/0 in [pi_estimate]. *)
Lemma five_bytes_not_reported :
  1 <= size (data five_bytes_input) <= 5
  /\ forall lm, exists s',
       calculate lm five_bytes_input = Done s' /\ get_pi_estimate s' = nan.
Proof.
  split; [split; vm_compute; discriminate|]. intros lm.
  now apply calculate_five.
Qed.

(** C6 - constant buffers.  For every buffer of [n + 1 >= 2] copies of one
    byte whose sums do not overflow ([n * value < 2^32]), the
    serial-correlation step stores the double NaN produced by 0/0 in the
    [serial_correlation] field itself; [print_result] reports it as
    undefined because the comparison [serial_correlation >= -99999] fails.
    From 5 bytes on [calculate()] completes and returns that NaN, which
    differs from 0.0. *)
Theorem constant_buffer_stores_nan (lm : libm) (s : Ent) (b : byte) (n : nat) :
  data s = repeat b (S n) ->
  1 <= Z.of_nat n < 2 ^ 53 ->
  Z.of_nat n * byte_val (if foldCaseMode s then ascii_fold b else b) < 2 ^ 32 ->
  (exists s', calculate_serial_correlation (prepared s) = Done s'
              /\ get_serial_correlation s' = nan
              /\ print_result_serial s' = SerialUndefined)
  /\ (4 <= Z.of_nat n ->
      exists s', calculate lm s = Done s'
                 /\ get_serial_correlation s' = nan
                 /\ print_result_serial s' = SerialUndefined)
  /\ nan <> 0%float.
Proof.
  intros Hd Hn Hb. split; [|split].
  - destruct (serial_correlation_constant (prepared s)
                (if foldCaseMode s then ascii_fold b else b) n) as [s' [H1 [H2 _]]].
    + rewrite data_prepared. now apply analysed_constant.
    + lia.
    + exact Hb.
    + exists s'. split; [exact H1|]. split; [exact H2|].
      unfold print_result_serial. rewrite H2. reflexivity.
  - intros H4. apply (calculate_constant lm s b n); [exact Hd|lia|exact Hb].
  - exact nan_not_zero.
Qed.

Lemma constant_buffer_stores_nan_witness :
  (data constant_input = repeat x07 6
   /\ 1 <= Z.of_nat 5 < 2 ^ 53
   /\ Z.of_nat 5 * byte_val x07 < 2 ^ 32)
  /\ forall lm, exists s',
       calculate lm constant_input = Done s'
       /\ get_serial_correlation s' = nan
       /\ print_result_serial s' = SerialUndefined.
Proof.
  assert (H1 : data constant_input = repeat x07 6) by reflexivity.
  assert (H2 : 1 <= Z.of_nat 5 < 2 ^ 53) by (split; [vm_compute; discriminate|reflexivity]).
  assert (H3 : Z.of_nat 5 * byte_val x07 < 2 ^ 32) by reflexivity.
  split; [split; [exact H1|split; [exact H2|exact H3]]|]. intros lm.
  destruct (constant_buffer_stores_nan lm constant_input x07 5 H1 H2 H3) as [_ [H _]].
  apply H. vm_compute. discriminate.
Defined.

(** C6, as stated, fails on six copies of the byte 7: what the record
    carries is a value of the [double] field (NaN), and the test that
    [print_result] uses to recognise it is a numeric comparison, which also
    reports the number -100000.0 as undefined. *)
Lemma constant_buffer_marker_is_a_double :
  data constant_input = repeat x07 6
  /\ (forall lm, exists s',
        calculate lm constant_input = Done s'
        /\ get_serial_correlation s' = (0 / 0)%float
        /\ print_result_serial s' = SerialUndefined)
  /\ print_result_serial (set_serial_correlation (-100000)%float constant_input)
     = SerialUndefined.
Proof.
  split; [reflexivity|]. split; [|reflexivity].
  intros lm.
  apply (calculate_constant lm constant_input x07 5);
    [reflexivity|split; [vm_compute; discriminate|reflexivity]|reflexivity].
Qed.

(** C7 - the buffer after [calculate()].  With the fold-case flag clear the
    buffer is unchanged; with the flag set [calculate()] itself rewrites the
    buffer, every ASCII uppercase letter becoming its lowercase letter, and
    leaves it so. *)
Theorem calculate_buffer_after (lm : libm) (s : Ent) :
  size (data s) < 2 ^ 64 ->
  (forall s', calculate lm s = Done s' ->
     data s' = (if foldCaseMode s then map ascii_fold (data s) else data s)
     /\ (foldCaseMode s = false -> data s' = data s))
  /\ (5 <= size (data s) -> exists s', calculate lm s = Done s').
Proof.
  intros Hs. split.
  - intros s' H. pose proof (calculate_data lm s s' Hs H) as Hd.
    unfold analysed in Hd. split; [exact Hd|].
    intros Hf. rewrite Hf in Hd. exact Hd.
  - intros H5. apply calculate_total. lia.
Qed.

Lemma calculate_buffer_after_witness :
  size (data folded_bytes_input) < 2 ^ 64
  /\ forall lm, exists s',
       calculate lm folded_bytes_input = Done s'
       /\ data s' = ["a"; "b"; "c"; "d"; "e"; "f"]%byte.
Proof.
  assert (H : size (data folded_bytes_input) < 2 ^ 64) by reflexivity.
  split; [exact H|]. intros lm.
  destruct (calculate_buffer_after lm folded_bytes_input H) as [Hd Ht].
  destruct Ht as [s' Hs']; [vm_compute; discriminate|].
  exists s'. split; [exact Hs'|]. exact (proj1 (Hd s' Hs')).
Defined.

(** C7, as stated, fails with the fold-case flag set: after the call the
    buffer "AbCdEf" reads "abcdef". *)
Lemma calculate_folds_the_buffer :
  foldCaseMode folded_bytes_input = true
  /\ forall lm, exists s',
       calculate lm folded_bytes_input = Done s'
       /\ data s' = ["a"; "b"; "c"; "d"; "e"; "f"]%byte
       /\ data s' <> data folded_bytes_input.
Proof.
  split; [reflexivity|]. intros lm.
  destruct (calculate_total lm folded_bytes_input) as [s' Hs'];
    [split; [vm_compute; discriminate|reflexivity]|].
  exists s'. split; [exact Hs'|].
  rewrite (calculate_data lm folded_bytes_input s' eq_refl Hs').
  split; [reflexivity|discriminate].
Qed.

(** C8 - the mean.  Whenever the byte sum stays within the exact range of a
    [double] (255 x length below 2^53), the mean computed by [calculate()]
    is the sum of the byte values divided by the number of bytes, whatever
    the sampling mode: bit mode and byte mode give the same [double]. *)
Theorem calculate_mean_is_mode_invariant (lm : libm) (s : Ent) :
  255 * size (data s) < 2 ^ 53 ->
  (forall bits,
     mean (calculate_mean (prepared (setStreamOfBitsMode bits s)))
     = arithmetic_mean (analysed s))
  /\ (forall bits s', calculate lm (setStreamOfBitsMode bits s) = Done s' ->
        get_mean s' = arithmetic_mean (analysed s))
  /\ (forall s1 s2,
        calculate lm (setStreamOfBitsMode true s) = Done s1 ->
        calculate lm (setStreamOfBitsMode false s) = Done s2 ->
        get_mean s1 = get_mean s2)
  /\ (5 <= size (data s) ->
      forall bits, exists s', calculate lm (setStreamOfBitsMode bits s) = Done s').
Proof.
  intros Hn. pose proof (size_nonneg (data s)) as H0.
  assert (Hstep : forall t, data t = analysed s -> mean (calculate_mean t)
                                                  = arithmetic_mean (analysed s)).
  { intros t Ht. rewrite <- Ht. apply calculate_mean_field.
    rewrite Ht, size_analysed. exact Hn. }
  assert (Hrun : forall bits s', calculate lm (setStreamOfBitsMode bits s) = Done s' ->
                                 get_mean s' = arithmetic_mean (analysed s)).
  { intros bits s' H.
    rewrite calculate_measure in H by (cbn [data setStreamOfBitsMode]; lia).
    apply measure_fields in H. destruct H as [_ [_ [_ [_ Hm]]]].
    unfold get_mean. rewrite Hm. apply Hstep.
    now rewrite data_calculate_chisquare, data_calculate_entropy, data_prepared. }
  split; [|split; [exact Hrun|split]].
  - intros bits. apply Hstep. now rewrite data_prepared.
  - intros s1 s2 H1 H2. rewrite (Hrun _ _ H1), (Hrun _ _ H2). reflexivity.
  - intros H5 bits. apply calculate_total. cbn [data setStreamOfBitsMode]. lia.
Qed.

Lemma calculate_mean_is_mode_invariant_witness :
  255 * size (data folded_bytes_input) < 2 ^ 53
  /\ forall lm, exists s1 s2,
       calculate lm (setStreamOfBitsMode true folded_bytes_input) = Done s1
       /\ calculate lm (setStreamOfBitsMode false folded_bytes_input) = Done s2
       /\ get_mean s1 = get_mean s2
       /\ get_mean s1 = (to_double 597 / to_double 6)%float.
Proof.
  assert (H : 255 * size (data folded_bytes_input) < 2 ^ 53) by reflexivity.
  split; [exact H|]. intros lm.
  destruct (calculate_mean_is_mode_invariant lm folded_bytes_input H)
    as [_ [Hrun [Hsame Ht]]].
  assert (H5 : 5 <= size (data folded_bytes_input)) by (vm_compute; discriminate).
  destruct (Ht H5 true) as [s1 H1]. destruct (Ht H5 false) as [s2 H2].
  exists s1, s2. split; [exact H1|]. split; [exact H2|].
  split; [exact (Hsame s1 s2 H1 H2)|exact (Hrun true s1 H1)].
Defined.

(** C9 - calling twice.  A second [calculate()] on the object left by a
    completed first call, with the buffer and the flags untouched in
    between, completes and leaves the very same object: the seven result
    fields and the buffer are identical.  The first call completes for every
    buffer of at least 5 bytes. *)
Theorem calculate_twice (lm : libm) (s : Ent) :
  size (data s) < 2 ^ 64 ->
  (forall s1, calculate lm s = Done s1 ->
     exists s2, calculate lm s1 = Done s2
                /\ get_entropy s2 = get_entropy s1
                /\ get_compression s2 = get_compression s1
                /\ get_chisquare s2 = get_chisquare s1
                /\ get_p_value s2 = get_p_value s1
                /\ get_mean s2 = get_mean s1
                /\ get_pi_estimate s2 = get_pi_estimate s1
                /\ get_serial_correlation s2 = get_serial_correlation s1
                /\ data s2 = data s1)
  /\ (5 <= size (data s) -> exists s1, calculate lm s = Done s1).
Proof.
  intros Hs. split.
  - intros s1 H. exists s1. split; [now apply (calculate_twice_same lm s)|].
    repeat split; reflexivity.
  - intros H5. apply calculate_total. lia.
Qed.

Lemma calculate_twice_witness :
  size (data folded_bits_input) < 2 ^ 64
  /\ forall lm, exists s1,
       calculate lm folded_bits_input = Done s1 /\ calculate lm s1 = Done s1.
Proof.
  assert (H : size (data folded_bits_input) < 2 ^ 64) by reflexivity.
  split; [exact H|]. intros lm.
  destruct (calculate_twice lm folded_bits_input H) as [Hd Ht].
  destruct Ht as [s1 H1]; [vm_compute; discriminate|].
  exists s1. split; [exact H1|].
  destruct (Hd s1 H1) as [s2 [H2 _]].
  rewrite H2. f_equal.
  assert (E : calculate lm s1 = Done s1)
    by exact (calculate_twice_same lm folded_bits_input s1 H H1).
  rewrite E in H2. now injection H2.
Defined.

(** C10 - indices of the Monte Carlo loop.  For a buffer of 1 to 4 bytes the
    bound [data.size() - 5] wraps around to [2^64 - 5 + size], the loop body
    is entered at [i = 0], and the read of [data[size]] is out of range:
    the index is not below the buffer length. *)
Theorem pi_loop_reads_past_the_end (lm : libm) (s : Ent) :
  1 <= size (data s) <= 4 ->
  wrap64 (size (data s) - 5) = 2 ^ 64 - 5 + size (data s)
  /\ calculate_pi s = OutOfRange (size (data s))
  /\ read (data s) (size (data s)) = OutOfRange (size (data s))
  /\ calculate lm s = OutOfRange (size (data s)).
Proof.
  intros Hs. split; [|split; [|split]].
  - unfold wrap64.
    replace (size (data s) - 5) with (2 ^ 64 - 5 + size (data s) + (-1) * 2 ^ 64) by lia.
    rewrite Z.mod_add by lia. apply Z.mod_small. lia.
  - apply calculate_pi_short. lia.
  - apply read_past. lia.
  - apply calculate_short. lia.
Qed.

Lemma pi_loop_reads_past_the_end_witness :
  1 <= size (data one_byte_input) <= 4
  /\ forall lm, calculate lm one_byte_input = OutOfRange 1.
Proof.
  assert (H : 1 <= size (data one_byte_input) <= 4)
    by (split; vm_compute; discriminate).
  split; [exact H|]. intros lm.
  exact (proj2 (proj2 (proj2 (pi_loop_reads_past_the_end lm one_byte_input H)))).
Defined.
